(** * Hotword detection component (hotword_pocketsphinx): model and properties

    A shallow embedding of [config/custom_components/hotword_pocketsphinx.py].

    The component consists of three pieces of code that run in different
    execution contexts and communicate through closure variables of
    [async_setup]:

    - the coroutine [async_listen], run by the event loop for every call of
      the [listen] service;
    - the function [listen], run by a daemon thread started by [async_listen];
    - the coroutine [async_terminate], run by the event loop when the host
      stops.

    The closure variables ([terminated], [detected_phrase], [detected_event],
    [state_attrs], the audio device and the decoder) form the shared store.
    The model is an interleaving semantics: a state holds the shared store and
    the program counters of every thread and coroutine created so far, and an
    action lets one of them take its next step.  The calls made to the
    host ([hass.states], [hass.bus]), to the audio device and to the decoder
    are recorded, in order, in a log.  The audio device and the decoder are
    external libraries; they are replaced by a script that says, for each
    [readinto], what the device returns and which hypothesis the decoder has
    after the buffer was processed.  The allocator of the host is external
    as well: whether a buffer of an admissible size is granted is decided at
    each allocation, by the choice between the actions [Worker] and
    [NoMemory]. *)

From Stdlib Require Import ZArith.
From Stdlib.Strings Require Import Byte.
From stdpp Require Import base list strings.

Open Scope string_scope.
Open Scope list_scope.
Open Scope Z_scope.

(** ** Constants of the module *)

Definition DOMAIN : string := "hotword_pocketsphinx".
Definition DEFAULT_NAME : string := "hotword_pocketsphinx".
Definition DEFAULT_BUFFER_SIZE : Z := 2048.
Definition OBJECT_DECODER : string := DOMAIN +:+ ".decoder".
Definition STATE_IDLE : string := "idle".
Definition STATE_LISTENING : string := "listening".
Definition EVENT_HOTWORD_DETECTED : string := "hotword_detected".

(** ** Data *)

(** The part of the configuration the coroutines use. *)
Record config := Config {
  name : string;
  hotword : string;
  buffer_size : Z
}.

(** A Python dict with string keys and values, in insertion order. *)
Definition dict := list (string * string).

(** One entry of the device and decoder script: [rd] is what
    [audio_device.readinto(buf)] returns, [data] the bytes it stores at the
    start of [buf], and [hyp] what [decoder.hyp()] answers after
    [decoder.process_raw]. *)
Record frame := Frame {
  rd : Z;
  data : list byte;
  hyp : option string
}.

(** Why the [while] loop of [listen] was left. *)
Inductive exit_reason :=
| ByMatch        (* [break]: the hypothesis equals the hotword *)
| ByTerminated   (* [not terminated] was false *)
| ByReadError.   (* [readinto(buf) >= 0] was false *)

(** Program counter of a thread running [listen]. *)
Inductive thread_pc :=
| TStart                      (* started, before [buf = bytearray(buffer_size)] *)
| TLoop                       (* inside both [with] blocks, at the loop test *)
| TSignal (r : exit_reason)   (* both [with] blocks left, before [detected_event.set()] *)
| TDone (r : exit_reason)     (* returned *)
| TCrashed.                   (* ended by an exception *)

(** Program counter of a coroutine running [async_listen]. *)
Inductive coro_pc :=
| CWait     (* suspended in [yield from ... detected_event.wait] *)
| CWoken    (* [detected_event.wait] has returned, the coroutine was not resumed yet *)
| CDone.    (* returned *)

(** One call of the [listen] service: its thread with the locals of [listen],
    and its coroutine. *)
Record session := Session_ {
  thread : thread_pc;
  buf : list byte;
  listen_detected_phrase : option string;
  coro : coro_pc
}.

Inductive actor :=
| Setup
| Call (i : nat)      (* the coroutine or the thread of the i-th call of [listen] *)
| Stop.               (* [async_terminate] *)

Inductive effect :=
| StatesSet (entity value : string) (attrs : dict)
| BusFire (event_type : string) (event_data : dict)
| AdEnter
| AdReadinto (ret : Z)
| AdExit
| StartUtteranceEnter
| StartUtteranceExit
| ProcessRaw (bytes : list byte)
| HypQuery (h : option string)
| EndUtteranceEnter
| EndUtteranceExit
| EventClear
| EventSet
| ThreadStart.

Definition entry : Type := actor * effect.

(** The shared store, the script that is left, the sessions and the log. *)
Record state := State {
  terminated : bool;
  detected_phrase : option string;
  detected_event : bool;
  state_attrs : dict;
  script : list frame;
  sessions : list session;
  log : list entry
}.

Inductive action :=
| Listen                (* the event loop runs [async_listen] up to its [yield from] *)
| Terminate             (* the event loop runs [async_terminate] *)
| Worker (i : nat)      (* the thread of session [i] takes a step *)
| Wake (i : nat)        (* [detected_event.wait] of session [i] returns *)
| Resume (i : nat)      (* the event loop resumes the coroutine of session [i] *)
| NoMemory (i : nat).   (* the thread of session [i] asks for its buffer and
                           the allocator raises [MemoryError] *)

#[global] Instance actor_eq_dec : EqDecision actor.
Proof. solve_decision. Defined.
#[global] Instance byte_eq_decision : EqDecision byte := Byte.byte_eq_dec.
#[global] Instance exit_reason_eq_dec : EqDecision exit_reason.
Proof. solve_decision. Defined.
#[global] Instance thread_pc_eq_dec : EqDecision thread_pc.
Proof. solve_decision. Defined.
#[global] Instance coro_pc_eq_dec : EqDecision coro_pc.
Proof. solve_decision. Defined.
#[global] Instance effect_eq_dec : EqDecision effect.
Proof. solve_decision. Defined.
#[global] Instance action_eq_dec : EqDecision action.
Proof. solve_decision. Defined.

(** ** Updates of the state *)

Definition emit (who : actor) (effs : list effect) (st : state) : state :=
  State (terminated st) (detected_phrase st) (detected_event st)
        (state_attrs st) (script st) (sessions st)
        (log st ++ map (pair who) effs).

Definition set_session (i : nat) (s : session) (st : state) : state :=
  State (terminated st) (detected_phrase st) (detected_event st)
        (state_attrs st) (script st) (<[i:=s]> (sessions st)) (log st).

Definition set_script (fs : list frame) (st : state) : state :=
  State (terminated st) (detected_phrase st) (detected_event st)
        (state_attrs st) fs (sessions st) (log st).

Definition set_detected_event (b : bool) (st : state) : state :=
  State (terminated st) (detected_phrase st) b
        (state_attrs st) (script st) (sessions st) (log st).

Definition set_terminated (b : bool) (st : state) : state :=
  State b (detected_phrase st) (detected_event st)
        (state_attrs st) (script st) (sessions st) (log st).

Definition set_detected_phrase (p : option string) (st : state) : state :=
  State (terminated st) p (detected_event st)
        (state_attrs st) (script st) (sessions st) (log st).

Definition add_session (s : session) (st : state) : state :=
  State (terminated st) (detected_phrase st) (detected_event st)
        (state_attrs st) (script st) (sessions st ++ [s]) (log st).

Definition with_thread (pc : thread_pc) (s : session) : session :=
  Session_ pc (buf s) (listen_detected_phrase s) (coro s).

Definition with_buf (b : list byte) (s : session) : session :=
  Session_ (thread s) b (listen_detected_phrase s) (coro s).

Definition with_phrase (p : option string) (s : session) : session :=
  Session_ (thread s) (buf s) p (coro s).

Definition with_coro (pc : coro_pc) (s : session) : session :=
  Session_ (thread s) (buf s) (listen_detected_phrase s) pc.

(** ** The external objects *)

(** The largest size of an object ([sys.maxsize] of a 64-bit interpreter). *)
Definition PY_SSIZE_T_MAX : Z := 2 ^ 63 - 1.

(** [bytearray(n)] when the allocator of the host grants the memory: [n]
    zero bytes.  A negative [n] raises [ValueError] and an [n] above
    [PY_SSIZE_T_MAX] raises [OverflowError], whatever the allocator does.
    For the other sizes the allocator decides, at each call, whether the
    memory is there; the call that raises [MemoryError] is the step
    [listen_no_memory] below. *)
Definition bytearray (n : Z) : option (list byte) :=
  if (n <? 0) || (PY_SSIZE_T_MAX <? n) then None
  else Some (replicate (Z.to_nat n) x00).

(** The effect of [audio_device.readinto(buf)] on [buf]: the bytes delivered
    overwrite the start of the buffer, the rest of the buffer keeps what it
    held; the length of the buffer never changes. *)
Definition readinto (f : frame) (b : list byte) : list byte :=
  take (length b) (data f) ++ drop (length (data f)) b.

(** ** The program *)

Section Program.

Variable cfg : config.

(** [async_setup], from the creation of the closure variables to its
    return: [detected_event] is a fresh (unset) event, the service and the
    stop listener are registered and the idle status is published.
    [fs] is the script the device and the decoder will follow. *)
Definition async_setup (fs : list frame) : state :=
  let attrs := [("friendly_name", "Hotword"); ("icon", "mdi:microphone")] in
  State false None false attrs fs []
        [(Setup, StatesSet OBJECT_DECODER STATE_IDLE attrs)].

(** [async_listen] from its start to the [yield from]: nothing in it can
    fail and nothing in it looks at the sessions that exist. *)
Definition async_listen (st : state) : state :=
  let i := length (sessions st) in
  let st := set_terminated false st in
  let st := set_detected_phrase None st in
  let st := emit (Call i) [StatesSet OBJECT_DECODER STATE_LISTENING (state_attrs st)] st in
  let st := set_detected_event false st in
  let st := emit (Call i) [EventClear] st in
  let st := add_session (Session_ TStart [] None CWait) st in
  emit (Call i) [ThreadStart] st.

(** [async_terminate]. *)
Definition async_terminate (st : state) : state :=
  let st := set_terminated true st in
  let st := set_detected_event true st in
  emit Stop [EventSet] st.

(** Leaving the two [with] blocks of [listen]. *)
Definition leave (i : nat) (r : exit_reason) (s : session) (st : state) : state :=
  set_session i (with_thread (TSignal r) s)
    (emit (Call i) [StartUtteranceExit; AdExit] st).

(** One step of the thread of session [i].  At [TLoop] a step is one
    evaluation of the loop test followed, when it is true, by the loop body.
    The result is [None] when the thread cannot move: it has ended, or it is
    blocked in [readinto] because the script has no frame left.  At [TStart]
    the step is the one in which the allocator grants the buffer. *)
Definition listen (i : nat) (st : state) : option state :=
  match sessions st !! i with
  | None => None
  | Some s =>
    match thread s with
    | TStart =>
      match bytearray (buffer_size cfg) with
      | None => Some (set_session i (with_thread TCrashed s) st)
      | Some b =>
        Some (set_session i (with_thread TLoop (with_buf b s))
                (emit (Call i) [AdEnter; StartUtteranceEnter] st))
      end
    | TLoop =>
      if terminated st then Some (leave i ByTerminated s st)
      else
        match script st with
        | [] => None
        | f :: fs =>
          let b := readinto f (buf s) in
          let s := with_buf b s in
          let st := emit (Call i) [AdReadinto (rd f)] (set_script fs st) in
          if rd f <? 0 then Some (leave i ByReadError s st)
          else
            let st := emit (Call i) [ProcessRaw b; HypQuery (hyp f)] st in
            match hyp f with
            | None => Some (set_session i s st)
            | Some h =>
              let st := emit (Call i) [EndUtteranceEnter] st in
              let s := with_phrase (Some h) s in
              if String.eqb h (hotword cfg)
              then Some (leave i ByMatch s (emit (Call i) [EndUtteranceExit] st))
              else Some (set_session i s (emit (Call i) [EndUtteranceExit] st))
            end
        end
    | TSignal r =>
      Some (set_session i (with_thread (TDone r) s)
              (emit (Call i) [EventSet] (set_detected_event true st)))
    | TDone _ | TCrashed => None
    end
  end.

(** The first statement of [listen], [buf = bytearray(buffer_size)], when
    the allocator has not the memory: [MemoryError] ends the thread before
    the audio device is entered and before [detected_event.set()]. *)
Definition listen_no_memory (i : nat) (st : state) : option state :=
  match sessions st !! i with
  | None => None
  | Some s =>
    match thread s with
    | TStart => Some (set_session i (with_thread TCrashed s) st)
    | _ => None
    end
  end.

(** [detected_event.wait], run by the executor for session [i], returns once
    the event is set. *)
Definition wait_returns (i : nat) (st : state) : option state :=
  match sessions st !! i with
  | None => None
  | Some s =>
    match coro s with
    | CWait =>
      if detected_event st then Some (set_session i (with_coro CWoken s) st)
      else None
    | _ => None
    end
  end.

(** A thread that [thread.join()] does not wait for. *)
Definition finished (pc : thread_pc) : bool :=
  match pc with
  | TDone _ | TCrashed => true
  | _ => false
  end.

(** The rest of [async_listen], after the [yield from].  [thread.join()]
    blocks until the thread has ended: until then the step is not enabled. *)
Definition async_listen_resume (i : nat) (st : state) : option state :=
  match sessions st !! i with
  | None => None
  | Some s =>
    match coro s with
    | CWoken =>
      if terminated st then Some (set_session i (with_coro CDone s) st)
      else if finished (thread s) then
        Some (set_session i (with_coro CDone s)
                (emit (Call i)
                   [StatesSet OBJECT_DECODER STATE_IDLE (state_attrs st);
                    BusFire EVENT_HOTWORD_DETECTED [("name", name cfg)]] st))
      else None
    | _ => None
    end
  end.

Definition step (a : action) (st : state) : option state :=
  match a with
  | Listen => Some (async_listen st)
  | Terminate => Some (async_terminate st)
  | Worker i => listen i st
  | Wake i => wait_returns i st
  | Resume i => async_listen_resume i st
  | NoMemory i => listen_no_memory i st
  end.

Fixpoint run (acts : list action) (st : state) : option state :=
  match acts with
  | [] => Some st
  | a :: acts =>
    match step a st with
    | None => None
    | Some st' => run acts st'
    end
  end.

End Program.

(** ** Observations on states and logs *)

(** A session is Listening while its thread is inside the two [with]
    blocks, at the loop. *)
Definition is_listening (s : session) : bool :=
  bool_decide (thread s = TLoop).

Definition listening_count (st : state) : nat :=
  length (filter (λ s, is_listening s = true) (sessions st)).

(** The value and the attributes the status surface holds for the decoder
    object after the calls of a log. *)
Definition observe (cur : option (string * dict)) (e : entry) : option (string * dict) :=
  match e.2 with
  | StatesSet ent v a => if String.eqb ent OBJECT_DECODER then Some (v, a) else cur
  | _ => cur
  end.

Definition status_surface (l : list entry) : option (string * dict) :=
  foldl observe None l.

(** The calls a session made, its thread and its coroutine together, in
    order. *)
Definition by_call (i : nat) (l : list entry) : list effect :=
  omap (λ e : entry, if decide (e.1 = Call i) then Some e.2 else None) l.

Definition effects (i : nat) (st : state) : list effect := by_call i (log st).

Fixpoint count (p : effect → bool) (l : list effect) : nat :=
  match l with
  | [] => 0%nat
  | e :: l => ((if p e then 1 else 0) + count p l)%nat
  end.

(** Kinds of calls. *)
Definition is_fire (e : effect) : bool :=
  match e with BusFire _ _ => true | _ => false end.

Definition is_idle (e : effect) : bool :=
  match e with StatesSet _ v _ => String.eqb v STATE_IDLE | _ => false end.

Definition is_listening_status (e : effect) : bool :=
  match e with StatesSet _ v _ => String.eqb v STATE_LISTENING | _ => false end.

Definition is_enter (e : effect) : bool :=
  match e with AdEnter => true | _ => false end.

Definition is_exit (e : effect) : bool :=
  match e with AdExit => true | _ => false end.

Definition is_utt_enter (e : effect) : bool :=
  match e with StartUtteranceEnter => true | _ => false end.

Definition is_utt_exit (e : effect) : bool :=
  match e with StartUtteranceExit => true | _ => false end.

Definition is_end_enter (e : effect) : bool :=
  match e with EndUtteranceEnter => true | _ => false end.

Definition is_end_exit (e : effect) : bool :=
  match e with EndUtteranceExit => true | _ => false end.

Definition is_read (e : effect) : bool :=
  match e with AdReadinto _ => true | _ => false end.

Definition is_failed_read (e : effect) : bool :=
  match e with AdReadinto r => r <? 0 | _ => false end.

Definition is_process (e : effect) : bool :=
  match e with ProcessRaw _ => true | _ => false end.

Definition is_hyp (e : effect) : bool :=
  match e with HypQuery _ => true | _ => false end.

Definition is_set (e : effect) : bool :=
  match e with EventSet => true | _ => false end.

Definition is_clear (e : effect) : bool :=
  match e with EventClear => true | _ => false end.

Definition is_thread_start (e : effect) : bool :=
  match e with ThreadStart => true | _ => false end.

(** The last hypothesis the decoder returned to a session. *)
Definition last_hypothesis (l : list effect) : option string :=
  foldl (λ cur e, match e with HypQuery (Some h) => Some h | _ => cur end) None l.

Definition attrs0 : dict := [("friendly_name", "Hotword"); ("icon", "mdi:microphone")].

(** ** Scenarios *)

Definition demo : config := Config DEFAULT_NAME "wakeword" 4.

Definition quiet (bs : list byte) : frame := Frame (Z.of_nat (length bs)) bs None.
Definition heard (bs : list byte) (h : string) : frame := Frame (Z.of_nat (length bs)) bs (Some h).
Definition fault : frame := Frame (-1) [] None.

(** ** Invariants *)

(** Every status publication carries the attributes of the setup. *)
Definition attrs_kept (st : state) : Prop :=
  state_attrs st = attrs0 ∧
  ∀ who ent v a, (who, StatesSet ent v a) ∈ log st → a = attrs0.

(** Before the first call of [listen]. *)
Definition idle_before_listen (st : state) : Prop :=
  sessions st = [] ∧ status_surface (log st) = Some (STATE_IDLE, attrs0).

(** The buffer of a thread inside the loop has the configured size, and
    so has every buffer handed to the decoder. *)
Definition buffers_sized (cfg : config) (st : state) : Prop :=
  (∀ i s, sessions st !! i = Some s → thread s = TLoop →
          length (buf s) = Z.to_nat (buffer_size cfg)) ∧
  (∀ who bs, (who, ProcessRaw bs) ∈ log st →
             length bs = Z.to_nat (buffer_size cfg)).


(** ** What a session has done, by program counter *)

(** How often a thread at [pc] has entered the audio device, left it, and
    set the event. *)
Definition entered (pc : thread_pc) : nat :=
  match pc with
  | TStart | TCrashed => 0
  | _ => 1
  end.

Definition left (pc : thread_pc) : nat :=
  match pc with
  | TSignal _ | TDone _ => 1
  | _ => 0
  end.

Definition signalled (pc : thread_pc) : nat :=
  match pc with
  | TDone _ => 1
  | _ => 0
  end.

Definition exit_of (pc : thread_pc) : option exit_reason :=
  match pc with
  | TSignal r | TDone r => Some r
  | _ => None
  end.

(** Every [detected_event.set()] in a list of calls comes after an
    [audio_device.__exit__]. *)
Definition set_after_exit (l : list effect) : Prop :=
  ∀ k, l !! k = Some EventSet →
       ∃ k', (k' < k)%nat ∧ l !! k' = Some AdExit.

(** The calls of the thread of a session agree with its program counter
    and its locals. *)
Definition thread_wf (cfg : config) (s : session) (l : list effect) : Prop :=
  count is_enter l = entered (thread s) ∧
  count is_utt_enter l = entered (thread s) ∧
  count is_exit l = left (thread s) ∧
  count is_utt_exit l = left (thread s) ∧
  count is_set l = signalled (thread s) ∧
  count is_end_exit l = count is_end_enter l ∧
  count is_hyp l = count is_process l ∧
  (count is_process l + count is_failed_read l = count is_read l)%nat ∧
  count is_failed_read l =
    (if decide (exit_of (thread s) = Some ByReadError) then 1 else 0)%nat ∧
  listen_detected_phrase s = last_hypothesis l ∧
  (listen_detected_phrase s = Some (hotword cfg) ↔
   exit_of (thread s) = Some ByMatch) ∧
  set_after_exit l.

(** The calls of the coroutine of a session. *)
Definition coro_wf (s : session) (l : list effect) : Prop :=
  count is_listening_status l = 1%nat ∧
  count is_clear l = 1%nat ∧
  count is_thread_start l = 1%nat ∧
  count is_idle l = count is_fire l ∧
  (count is_fire l ≤ 1)%nat ∧
  (count is_fire l = 1%nat → coro s = CDone ∧ finished (thread s) = true).

(** The invariant of the component. *)
Definition consistent (cfg : config) (st : state) : Prop :=
  detected_phrase st = None ∧
  (∀ i, (length (sessions st) ≤ i)%nat → effects i st = []) ∧
  ∀ i s, sessions st !! i = Some s →
    thread_wf cfg s (effects i st) ∧ coro_wf s (effects i st).


(** A status publication or a notification on the bus. *)
Definition is_publication (e : effect) : bool :=
  match e with
  | StatesSet _ _ _ | BusFire _ _ => true
  | _ => false
  end.

(** Every notification directly follows an idle publication by the same
    coroutine. *)
Definition fire_follows_idle (l : list entry) : Prop :=
  ∀ k who t d, l !! k = Some (who, BusFire t d) →
    ∃ k' a, k = S k' ∧
      l !! k' = Some (who, StatesSet OBJECT_DECODER STATE_IDLE a).

Definition not_published (e : entry) : Prop := is_publication e.2 = false.

(** Some thread has left its loop and set the event. *)
Definition some_worker_returned (st : state) : Prop :=
  ∃ j sj r, sessions st !! j = Some sj ∧ thread sj = TDone r.

(** The event is set, or a coroutine was woken, only after some thread
    returned. *)
Definition woken_by_worker (st : state) : Prop :=
  (detected_event st = true → some_worker_returned st) ∧
  (∀ i s, sessions st !! i = Some s → coro s ≠ CWait → some_worker_returned st).

(** No thread got past the allocation of its buffer. *)
Definition no_worker_started (fs : list frame) (st : state) : Prop :=
  script st = fs ∧
  ∀ i s, sessions st !! i = Some s → thread s = TStart ∨ thread s = TCrashed.

(** The number of calls of [listen] among the actions of a run. *)
Definition listens (acts : list action) : nat :=
  length (filter (λ a, a = Listen) acts).

(** A session as it is later in the run: a thread that has ended keeps its
    program counter and its locals, a coroutine that has returned stays so. *)
Definition later (s s' : session) : Prop :=
  (finished (thread s) = true →
   thread s' = thread s ∧ buf s' = buf s ∧
   listen_detected_phrase s' = listen_detected_phrase s) ∧
  (coro s = CDone → coro s' = CDone).

(** A frame that keeps the loop of [listen] going: the read succeeds and
    the decoder has no hypothesis, or one that is not the hotword. *)
Definition unheard (cfg : config) (f : frame) : Prop :=
  0 ≤ rd f ∧ hyp f ≠ Some (hotword cfg).

(** What iterations of the loop of the thread of session [i] leave as it
    was. *)
Definition loop_kept (i : nat) (s : session) (st : state)
    (s' : session) (st' : state) : Prop :=
  sessions st' = <[i:=s']> (sessions st) ∧
  thread s' = TLoop ∧
  coro s' = coro s ∧
  terminated st' = terminated st ∧
  detected_event st' = detected_event st ∧
  state_attrs st' = state_attrs st.

(** The calls of the coroutine that reports a detection. *)
Definition report (cfg : config) (st : state) : list effect :=
  [StatesSet OBJECT_DECODER STATE_IDLE (state_attrs st);
   BusFire EVENT_HOTWORD_DETECTED [("name", name cfg)]].

(** ** A run used to illustrate the theorems *)

(** One call of [listen] with a buffer of four bytes: a frame without
    hypothesis, then a frame in which the hotword is heard; the thread signals,
    the coroutine wakes and is resumed. *)
Definition detection_script : list frame :=
  [quiet [x01; x02]; heard [x03] "wakeword"; quiet [x04]].

Definition detection_run : list action :=
  [Listen; Worker 0; Worker 0; Worker 0; Worker 0; Wake 0; Resume 0].

(** A configuration with a negative buffer size. *)
Definition broken : config := Config DEFAULT_NAME "wakeword" (-1).

(** Two calls of [listen]; the thread of the first hears the hotword and
    sets the event, and the wait of the second call returns. *)
Definition crossed_script : list frame := [heard [x03] "wakeword"].

Definition crossed_run : list action :=
  [Listen; Worker 0; Listen; Worker 0; Worker 0; Wake 1].

(** The state in which the thread of the first call of [listen] has
    entered its loop, and the session of that call. *)
Definition in_loop : state :=
  set_session 0
    (Session_ TLoop [x00; x00; x00; x00] None CWait)
    (emit (Call 0) [AdEnter; StartUtteranceEnter]
       (async_listen (async_setup detection_script))).

Definition in_loop_session : session :=
  Session_ TLoop [x00; x00; x00; x00] None CWait.

(** ** Tactics *)

(** Case analysis of a successful step. *)
Ltac step_cases H :=
  unfold step, listen, listen_no_memory, wait_returns, async_listen_resume,
    bytearray in H;
  repeat case_match; simplify_eq.

(** Membership in a log extended by explicitly listed entries. *)
Ltac split_in H :=
  repeat match type of H with
  | _ ∈ _ ++ _ => apply elem_of_app in H as [H|H]
  | _ ∈ _ :: _ => apply elem_of_cons in H as [H|H]
  | _ ∈ [] => by apply elem_of_nil in H
  end.


(** Lookup of a session after a step: the session that moved, or another. *)
Ltac session_cases H i j :=
  cbn in H;
  destruct (decide (i = j)) as [->|?];
  [rewrite list_lookup_insert_eq in H by (by eapply lookup_lt_Some)
  |rewrite list_lookup_insert_ne in H by done];
  simplify_eq.

(** Facts about a concrete run, settled by evaluation, one conjunct after
    the other. *)
Ltac by_evaluation :=
  repeat match goal with
  | |- ∃ _, _ => eexists
  | |- _ ∧ _ => split
  end;
  vm_compute; reflexivity.

(** The state a concrete run ends in, and a session of it. *)
Ltac reach st E :=
  match goal with
  | |- ∃ _, run ?c ?acts ?st0 = Some _ ∧ _ =>
    destruct (run c acts st0) as [st|] eqn:E; [|vm_compute in E; discriminate];
    exists st; split; [reflexivity|]
  end.

Ltac session_at s Es :=
  match goal with
  | E : run _ _ _ = Some ?st |- ∃ _, sessions ?st !! ?i = Some _ ∧ _ =>
    destruct (sessions st !! i) as [s|] eqn:Es;
    [exists s; split; [reflexivity|]
    |exfalso; let E' := fresh in
     pose proof E as E'; vm_compute in E'; injection E' as <-;
     vm_compute in Es; discriminate]
  end.
(** ** Basic facts about steps and runs *)

Section Facts.

Variable cfg : config.

Lemma run_app (xs ys : list action) (st : state) :
  run cfg (xs ++ ys) st =
  match run cfg xs st with Some st' => run cfg ys st' | None => None end.
Proof.
  revert st. induction xs as [|a xs IH]; intros st; cbn; [done|].
  destruct (step cfg a st); [apply IH | done].
Qed.

(** A property kept by every step allowed by [A] holds along every run
    whose actions are allowed by [A]. *)
Lemma run_invariant_on (A : action → Prop) (P : state → Prop) :
  (∀ a st st', A a → P st → step cfg a st = Some st' → P st') →
  ∀ acts st st', Forall A acts → P st → run cfg acts st = Some st' → P st'.
Proof.
  intros Hstep acts. induction acts as [|a acts IH]; intros st st' HA HP Hrun; cbn in Hrun.
  - by simplify_eq.
  - destruct (step cfg a st) as [st1|] eqn:E; [|done].
    inversion HA; subst. eauto.
Qed.

Lemma run_invariant (P : state → Prop) :
  (∀ a st st', P st → step cfg a st = Some st' → P st') →
  ∀ acts st st', P st → run cfg acts st = Some st' → P st'.
Proof.
  intros Hstep acts st st' HP Hrun.
  apply (run_invariant_on (λ _, True) P (λ a s s' _, Hstep a s s') acts st st');
    [by apply Forall_forall | done | done].
Qed.

End Facts.



(** ** The status attributes *)


Lemma attrs_kept_setup fs : attrs_kept (async_setup fs).
Proof.
  split; [done|]. intros who ent v a Hin. cbn in Hin.
  split_in Hin. by simplify_eq.
Qed.

Lemma attrs_kept_step cfg a st st' :
  attrs_kept st → step cfg a st = Some st' → attrs_kept st'.
Proof.
  intros [Ha Hl] H.
  destruct a; step_cases H; (split; [done|]); cbn;
    intros who ent v a Hin; split_in Hin; simplify_eq; eauto.
Qed.


Lemma idle_before_listen_step cfg a st st' :
  a ≠ Listen → idle_before_listen st → step cfg a st = Some st' →
  idle_before_listen st'.
Proof.
  intros Ha [Hs Hl] H. destruct a; try done; cbn in H.
  - simplify_eq. split; [done|]. cbn. unfold status_surface in *.
    by rewrite foldl_app, Hl.
  - unfold listen in H. by rewrite Hs in H.
  - unfold wait_returns in H. by rewrite Hs in H.
  - unfold async_listen_resume in H. by rewrite Hs in H.
  - unfold listen_no_memory in H. by rewrite Hs in H.
Qed.

(** ** Lookups after updates *)


Lemma lookup_set_session_ne i j s st :
  i ≠ j → sessions (set_session i s st) !! j = sessions st !! j.
Proof. intros Hij. cbn. by apply list_lookup_insert_ne. Qed.


Lemma lookup_async_listen_old st i s :
  sessions st !! i = Some s → sessions (async_listen st) !! i = Some s.
Proof. intros H. cbn. by apply lookup_app_l_Some. Qed.

Section Steps.

Variable cfg : config.

(** The first step of a thread: the buffer is allocated and both [with]
    blocks are entered. *)
Lemma listen_start i s st :
  sessions st !! i = Some s → thread s = TStart →
  0 ≤ buffer_size cfg ≤ PY_SSIZE_T_MAX →
  listen cfg i st =
  Some (set_session i
          (with_thread TLoop (with_buf (replicate (Z.to_nat (buffer_size cfg)) x00) s))
          (emit (Call i) [AdEnter; StartUtteranceEnter] st)).
Proof.
  intros Hs Ht Hb. unfold listen, bytearray. rewrite Hs, Ht.
  destruct (Z.ltb_spec (buffer_size cfg) 0); [lia|].
  destruct (Z.ltb_spec PY_SSIZE_T_MAX (buffer_size cfg)); [lia | done].
Qed.

(** The loop test with the flag set: the loop is left without a read. *)
Lemma listen_terminated i s st :
  sessions st !! i = Some s → thread s = TLoop → terminated st = true →
  listen cfg i st = Some (leave i ByTerminated s st).
Proof. intros Hs Ht Hf. unfold listen. by rewrite Hs, Ht, Hf. Qed.


End Steps.

(** ** The status surface and its attributes *)

(** C10: when [async_setup] returns, and as long as no [listen] call has
    been made, the status surface of the decoder object holds "idle" with the
    attributes friendly name "Hotword" and icon "mdi:microphone"; every status
    publication of every run carries exactly these attributes. *)
Theorem C10_idle_status_and_fixed_attributes cfg fs acts st :
  run cfg acts (async_setup fs) = Some st →
  status_surface (log (async_setup fs))
    = Some ("idle", [("friendly_name", "Hotword"); ("icon", "mdi:microphone")]) ∧
  (Forall (λ a, a ≠ Listen) acts →
   status_surface (log st)
     = Some ("idle", [("friendly_name", "Hotword"); ("icon", "mdi:microphone")])) ∧
  (∀ who ent v a,
     (who, StatesSet ent v a) ∈ log st →
     a = [("friendly_name", "Hotword"); ("icon", "mdi:microphone")]).
Proof.
  intros Hrun. split; [done|]. split.
  - intros Hacts.
    assert (idle_before_listen st) as [_ H]; [|exact H].
    eapply (run_invariant_on cfg (λ a, a ≠ Listen) idle_before_listen); eauto.
    + intros a s s' Ha Hs Hstep. by eapply idle_before_listen_step.
    + by split.
  - assert (attrs_kept st) as [_ H]; [|exact H].
    eapply (run_invariant cfg attrs_kept); eauto using attrs_kept_step, attrs_kept_setup.
Qed.

Lemma C10_idle_status_and_fixed_attributes_witness :
  ∃ st,
    run demo [Listen; Worker 0; Worker 0; Worker 0; Wake 0; Resume 0]
        (async_setup [heard [x01; x02] "wakeword"]) = Some st ∧
    ∀ who ent v a,
      (who, StatesSet ent v a) ∈ log st →
      a = [("friendly_name", "Hotword"); ("icon", "mdi:microphone")].
Proof.
  eexists. split; [vm_compute; reflexivity|].
  apply (C10_idle_status_and_fixed_attributes demo
           [heard [x01; x02] "wakeword"]
           [Listen; Worker 0; Worker 0; Worker 0; Wake 0; Resume 0]).
  vm_compute; reflexivity.
Defined.

(** ** Calls of the listen service *)

(** C1 (as the code has it): [async_listen] has no busy check.  Every call,
    whatever the sessions that exist and whatever they are doing, succeeds,
    publishes "listening", resets the shared flag, the shared phrase and the
    event, and adds a session with a new thread; the sessions that exist are
    left as they are, so one that is Listening stays Listening. *)
Theorem C1_listen_is_never_rejected cfg st :
  ∃ st',
    step cfg Listen st = Some st' ∧
    sessions st' = sessions st ++ [Session_ TStart [] None CWait] ∧
    (∀ i s, sessions st !! i = Some s → sessions st' !! i = Some s) ∧
    terminated st' = false ∧
    detected_phrase st' = None ∧
    detected_event st' = false ∧
    log st' = log st ++
      [(Call (length (sessions st)),
          StatesSet OBJECT_DECODER STATE_LISTENING (state_attrs st));
       (Call (length (sessions st)), EventClear);
       (Call (length (sessions st)), ThreadStart)].
Proof.
  exists (async_listen st). split; [done|]. split; [done|]. split.
  - intros i s. apply lookup_async_listen_old.
  - do 3 (split; [reflexivity|]). cbn. by rewrite <- !app_assoc.
Qed.

(** C1, the claim refuted: with one session Listening, a second call of
    [listen] is not rejected; it creates a second session, and after the
    first step of its thread two sessions are Listening. *)
Lemma C1_second_listen_while_listening :
  ∃ st1 st2 st3,
    run demo [Listen; Worker 0] (async_setup []) = Some st1 ∧
    listening_count st1 = 1%nat ∧
    step demo Listen st1 = Some st2 ∧
    length (sessions st2) = 2%nat ∧
    step demo (Worker 1) st2 = Some st3 ∧
    listening_count st3 = 2%nat.
Proof. by_evaluation. Qed.



(** ** Shutdown requests *)

Lemma terminated_kept cfg a st st' :
  a ≠ Listen → terminated st = true → step cfg a st = Some st' →
  terminated st' = true.
Proof. intros Ha Hf H. destruct a; try done; step_cases H; done. Qed.

(** C8 (as the code has it): [async_terminate] never fails, in any state,
    also one without sessions or one in which it has run before; it changes
    only the flag and the event.  After it the flag is true, and it stays true
    along every run without a call of [listen] (further shutdown requests and
    steps of the threads and coroutines included). *)
Theorem C8_shutdown_total_flag_kept_until_listen cfg st acts st' :
  Forall (λ a, a ≠ Listen) acts →
  run cfg acts (async_terminate st) = Some st' →
  step cfg Terminate st = Some (async_terminate st) ∧
  terminated (async_terminate st) = true ∧
  detected_event (async_terminate st) = true ∧
  sessions (async_terminate st) = sessions st ∧
  script (async_terminate st) = script st ∧
  detected_phrase (async_terminate st) = detected_phrase st ∧
  state_attrs (async_terminate st) = state_attrs st ∧
  log (async_terminate st) = log st ++ [(Stop, EventSet)] ∧
  terminated st' = true.
Proof.
  intros Hacts Hrun. do 8 (split; [reflexivity|]).
  apply (run_invariant_on cfg (λ a, a ≠ Listen) (λ s, terminated s = true)
           (terminated_kept cfg) acts (async_terminate st) st' Hacts eq_refl Hrun).
Qed.

Lemma C8_shutdown_total_flag_kept_until_listen_witness :
  ∃ st',
    run demo [Terminate; Worker 0; Worker 0; Wake 0; Terminate; Resume 0]
        (async_terminate (async_listen (async_setup []))) = Some st' ∧
    terminated st' = true.
Proof.
  eexists. split; [vm_compute; reflexivity|].
  apply (C8_shutdown_total_flag_kept_until_listen demo (async_listen (async_setup []))
           [Terminate; Worker 0; Worker 0; Wake 0; Terminate; Resume 0]).
  - repeat constructor; discriminate.
  - vm_compute; reflexivity.
Defined.

(** C8, the claim refuted: session 0 is inside its loop and its coroutine is
    waiting when the shutdown request sets the flag; a second call of [listen]
    then resets the flag while session 0 is still in its loop. *)
Lemma C8_flag_reset_while_session_runs :
  ∃ st1 st2 s,
    run demo [Listen; Worker 0; Terminate] (async_setup [quiet [x01]]) = Some st1 ∧
    terminated st1 = true ∧
    step demo Listen st1 = Some st2 ∧
    sessions st2 !! 0%nat = Some s ∧
    thread s = TLoop ∧ coro s = CWait ∧
    terminated st2 = false.
Proof. by_evaluation. Qed.

(** ** The buffer handed to the decoder *)

Lemma length_readinto f b : length (readinto f b) = length b.
Proof.
  unfold readinto. rewrite length_app, length_take, length_drop. lia.
Qed.

Lemma buffers_sized_setup cfg fs : buffers_sized cfg (async_setup fs).
Proof.
  split.
  - intros i s H. cbn in H. by rewrite lookup_nil in H.
  - intros who bs Hin. cbn in Hin. split_in Hin. by simplify_eq.
Qed.

Lemma buffers_sized_step cfg a st st' :
  buffers_sized cfg st → step cfg a st = Some st' → buffers_sized cfg st'.
Proof.
  intros [Hb Hl] H. destruct a as [| |i|i|i|i]; step_cases H.
  1: { split.
    - intros j s Hj Ht. cbn in Hj. apply lookup_app_Some in Hj as [Hj|[_ Hj]]; [eauto|].
      apply list_lookup_singleton_Some in Hj as [_ <-]. done.
    - intros who bs Hin. cbn in Hin. split_in Hin; simplify_eq; eauto. }
  1: { split; [exact Hb|]. intros who bs Hin. cbn in Hin. split_in Hin; simplify_eq; eauto. }
  all: split;
    [intros j s' Hj Ht; session_cases Hj i j; eauto;
     cbn in *; rewrite ?length_readinto, ?length_replicate; eauto
    |intros who bs Hin; cbn in Hin; split_in Hin; simplify_eq;
     rewrite ?length_readinto; eauto].
Qed.

(** C7 (as the code has it): in every iteration whose read returned a
    non-negative count, the decoder is handed the whole buffer, of
    [buffer_size] bytes, whatever count [readinto] reported; the count is only
    compared with zero. *)
Theorem C7_decoder_is_fed_the_whole_buffer cfg fs acts st i s f rest :
  run cfg acts (async_setup fs) = Some st →
  sessions st !! i = Some s →
  thread s = TLoop →
  terminated st = false →
  script st = f :: rest →
  0 ≤ rd f →
  ∃ st' l,
    listen cfg i st = Some st' ∧
    log st' = log st ++
      (Call i, AdReadinto (rd f)) :: (Call i, ProcessRaw (readinto f (buf s))) :: l ∧
    length (readinto f (buf s)) = Z.to_nat (buffer_size cfg) ∧
    ∀ who bs, (who, ProcessRaw bs) ∈ log st' → length bs = Z.to_nat (buffer_size cfg).
Proof.
  intros Hrun Hs Ht Hf Hscript Hrd.
  assert (buffers_sized cfg st) as Hinv.
  { eapply (run_invariant cfg (buffers_sized cfg)); eauto using buffers_sized_step, buffers_sized_setup. }
  assert (∃ st' l, listen cfg i st = Some st' ∧
    log st' = log st ++
      (Call i, AdReadinto (rd f)) :: (Call i, ProcessRaw (readinto f (buf s))) :: l)
    as (st' & l & Hstep & Hlog).
  { unfold listen. rewrite Hs, Ht, Hf, Hscript.
    destruct (Z.ltb_spec (rd f) 0) as [?|_]; [lia|].
    destruct (hyp f) as [h|]; [destruct (String.eqb h (hotword cfg))|].
    all: do 2 eexists; split; [reflexivity|].
    all: cbn [log leave set_session emit set_script map]; rewrite <- ?app_assoc; cbn [app]; reflexivity. }
  exists st', l. split; [done|]. split; [done|]. split.
  - rewrite length_readinto. by eapply (proj1 Hinv).
  - apply (buffers_sized_step cfg (Worker i) st st' Hinv Hstep).
Qed.

Lemma C7_decoder_is_fed_the_whole_buffer_witness :
  ∃ st st',
    run demo [Listen; Worker 0] (async_setup [quiet [x01; x02]]) = Some st ∧
    listen demo 0 st = Some st' ∧
    ∀ who bs, (who, ProcessRaw bs) ∈ log st' → length bs = Z.to_nat (buffer_size demo).
Proof.
  destruct (run demo [Listen; Worker 0] (async_setup [quiet [x01; x02]]))
    as [st|] eqn:E; [|vm_compute in E; discriminate].
  pose proof E as E'. vm_compute in E'. injection E' as <-.
  destruct (C7_decoder_is_fed_the_whole_buffer demo [quiet [x01; x02]]
              [Listen; Worker 0] _ 0%nat
              (Session_ TLoop [x00; x00; x00; x00] None CWait)
              (quiet [x01; x02]) [] E)
    as (st' & l & Hstep & _ & _ & H).
  1-4: vm_compute; reflexivity.
  - vm_compute; discriminate.
  - eexists. exists st'. split; [reflexivity|]. split; [exact Hstep | exact H].
Defined.

(** C7, the claim refuted: with a buffer of 4 bytes, a read that reports 2
    bytes is followed by a [process_raw] of 4 bytes, and the next read, which
    reports 1 byte, by a [process_raw] of 4 bytes, three of them stale. *)
Lemma C7_short_read_feeds_four_bytes :
  ∃ st,
    run demo [Listen; Worker 0; Worker 0; Worker 0]
        (async_setup [quiet [x01; x02]; quiet [x09]]) = Some st ∧
    drop 6 (log st) =
      [(Call 0, AdReadinto 2); (Call 0, ProcessRaw [x01; x02; x00; x00]);
       (Call 0, HypQuery None);
       (Call 0, AdReadinto 1); (Call 0, ProcessRaw [x09; x02; x00; x00]);
       (Call 0, HypQuery None)] ∧
    length [x01; x02; x00; x00] ≠ Z.to_nat 2.
Proof.
  eexists. split; [vm_compute; reflexivity|].
  split; [vm_compute; reflexivity|]. discriminate.
Qed.

(** ** Calls by session *)

Lemma count_app p l1 l2 : count p (l1 ++ l2) = (count p l1 + count p l2)%nat.
Proof. induction l1 as [|e l1 IH]; cbn; [done|]. rewrite IH. lia. Qed.

Lemma by_call_app i l1 l2 : by_call i (l1 ++ l2) = by_call i l1 ++ by_call i l2.
Proof. apply omap_app. Qed.

Lemma by_call_own i effs : by_call i (map (pair (Call i)) effs) = effs.
Proof.
  induction effs as [|e effs IH]; [done|].
  cbn. rewrite decide_True by done. cbn. by f_equal.
Qed.

Lemma by_call_other who i effs :
  who ≠ Call i → by_call i (map (pair who) effs) = [].
Proof.
  intros Hne. induction effs as [|e effs IH]; [done|].
  cbn. by rewrite decide_False.
Qed.

Lemma last_hypothesis_app l1 l2 :
  last_hypothesis (l1 ++ l2) =
  foldl (λ cur e, match e with HypQuery (Some h) => Some h | _ => cur end)
        (last_hypothesis l1) l2.
Proof. unfold last_hypothesis. by rewrite foldl_app. Qed.

Lemma set_after_exit_app l l' :
  set_after_exit l → count is_set l' = 0%nat → set_after_exit (l ++ l').
Proof.
  intros Hl Hnone k Hk. apply lookup_app_Some in Hk as [Hk|[Hlen Hk]].
  - destruct (Hl k Hk) as (k' & Hlt & Hk'). exists k'. split; [done|].
    by apply lookup_app_l_Some.
  - exfalso. revert Hnone. generalize (k - length l)%nat as m, Hk. clear.
    induction l' as [|e l' IH]; intros m Hm; [done|].
    destruct m as [|m]; cbn in *.
    + simplify_eq. cbn. lia.
    + intros Hc. apply (IH m Hm). destruct (is_set e); lia.
Qed.

Lemma count_pos_lookup p l :
  (0 < count p l)%nat → ∃ k e, l !! k = Some e ∧ p e = true.
Proof.
  induction l as [|e l IH]; cbn; [lia|].
  destruct (p e) eqn:E.
  - intros _. by exists 0%nat, e.
  - intros H. destruct IH as (k & e' & Hk & He'); [lia|]. by exists (S k), e'.
Qed.

Lemma set_after_exit_signal l :
  set_after_exit l → (0 < count is_exit l)%nat → set_after_exit (l ++ [EventSet]).
Proof.
  intros Hl Hexit k Hk. apply lookup_app_Some in Hk as [Hk|[Hlen Hk]].
  - destruct (Hl k Hk) as (k' & Hlt & Hk'). exists k'. split; [done|].
    by apply lookup_app_l_Some.
  - destruct (count_pos_lookup _ _ Hexit) as (k' & e & Hk' & He).
    destruct e; try discriminate.
    exists k'. split; [apply lookup_lt_Some in Hk'; lia|].
    by apply lookup_app_l_Some.
Qed.

(** ** The invariant of the component *)

Lemma consistent_setup cfg fs : consistent cfg (async_setup fs).
Proof.
  split; [done|]. split; [done|]. intros i s H. by cbn in H.
Qed.

(** A step of session [i] that makes the calls [new]: only what the
    session itself did has to be checked. *)
Lemma consistent_session_step cfg st st' i s s' new :
  consistent cfg st →
  sessions st !! i = Some s →
  detected_phrase st' = detected_phrase st →
  sessions st' = <[i:=s']> (sessions st) →
  (∀ j, effects j st' = effects j st ++ (if decide (j = i) then new else [])) →
  (thread_wf cfg s (effects i st) → coro_wf s (effects i st) →
   thread_wf cfg s' (effects i st ++ new) ∧ coro_wf s' (effects i st ++ new)) →
  consistent cfg st'.
Proof.
  intros (Hp & Hout & Hs) Hi Hp' Hs' Hlog Hwf.
  assert (i < length (sessions st))%nat as Hlt by (by eapply lookup_lt_Some).
  split; [congruence|]. split.
  - intros j Hj. rewrite Hs', length_insert in Hj.
    rewrite Hlog, decide_False by lia. rewrite app_nil_r. by apply Hout.
  - intros j sj Hj. rewrite Hs' in Hj. rewrite Hlog.
    destruct (decide (j = i)) as [->|Hne].
    + rewrite list_lookup_insert_eq in Hj by done. simplify_eq.
      destruct (Hs i s Hi). by apply Hwf.
    + rewrite list_lookup_insert_ne in Hj by done. rewrite app_nil_r. by apply Hs.
Qed.

Ltac own_effects :=
  intros ?j; unfold effects, leave;
  cbn [log emit set_session set_script set_detected_event];
  rewrite ?by_call_app;
  destruct (decide _) as [->|?];
  [rewrite ?by_call_own, <- ?app_assoc; first [reflexivity | symmetry; apply app_nil_r]
  |rewrite ?by_call_other, ?app_nil_r by congruence; reflexivity].

Lemma consistent_async_terminate cfg st :
  consistent cfg st → consistent cfg (async_terminate st).
Proof.
  intros (Hp & Hout & Hs).
  assert (∀ j, effects j (async_terminate st) = effects j st) as Heq.
  { intros j. unfold effects, async_terminate.
    cbn [log emit set_terminated set_detected_event].
    by rewrite by_call_app, by_call_other, app_nil_r. }
  split; [done|]. split.
  - intros j Hj. rewrite Heq. by apply Hout.
  - intros j s Hj. rewrite Heq. by apply Hs.
Qed.

Lemma effects_async_listen st j :
  effects j (async_listen st) =
  effects j st ++
  (if decide (j = length (sessions st))
   then [StatesSet OBJECT_DECODER STATE_LISTENING (state_attrs st);
         EventClear; ThreadStart]
   else []).
Proof.
  unfold effects, async_listen.
  cbn [log state_attrs emit set_terminated set_detected_phrase set_detected_event
       add_session].
  rewrite !by_call_app. destruct (decide _) as [->|Hne].
  - by rewrite !by_call_own, <- !app_assoc.
  - rewrite !by_call_other by congruence. by rewrite !app_nil_r.
Qed.

Lemma consistent_async_listen cfg st :
  consistent cfg st → consistent cfg (async_listen st).
Proof.
  intros (Hp & Hout & Hs). split; [done|]. split.
  - intros j Hj. cbn in Hj. rewrite length_app in Hj. cbn in Hj.
    rewrite effects_async_listen, decide_False by lia.
    rewrite app_nil_r. apply Hout. lia.
  - intros j s Hj. rewrite effects_async_listen.
    change (sessions (async_listen st))
      with (sessions st ++ [Session_ TStart [] None CWait]) in Hj.
    apply lookup_app_Some in Hj as [Hj|[Hlen Hj]].
    + apply lookup_lt_Some in Hj as Hlt.
      rewrite decide_False by lia. rewrite app_nil_r. by apply Hs.
    + apply list_lookup_singleton_Some in Hj as [Hz <-].
      assert (j = length (sessions st)) as -> by lia.
      rewrite decide_True by done. rewrite Hout by done.
      repeat split; try done.
      * intros [|[|[|k]]] Hk; discriminate.
      * cbn. lia.
Qed.

Ltac string_tests :=
  repeat match goal with
  | H : (_ =? _)%string = true |- _ => apply String.eqb_eq in H
  | H : (_ =? _)%string = false |- _ => apply String.eqb_neq in H
  end.

Lemma consistent_step cfg a st st' :
  consistent cfg st → step cfg a st = Some st' → consistent cfg st'.
Proof.
  intros Hc H. step_cases H.
  1: by apply consistent_async_listen.
  1: by apply consistent_async_terminate.
  all: eapply consistent_session_step;
    [exact Hc | eassumption | reflexivity | reflexivity | own_effects |].
  all: unfold thread_wf, coro_wf; set (E := effects _ _) in *; clearbody E.
  all: intros (E1&E2&E3&E4&E5&E6&E7&E8&E9&E10&E11&E12) (F1&F2&F3&F4&F5&F6).
  all: destruct s as [pc b p c]; cbn in * |-; try subst pc; try subst c; cbn in * |-.
  all: rewrite ?count_app, ?last_hypothesis_app; cbn.
  all: repeat match goal with H : (_ <? _) = _ |- _ => rewrite H end.
  all: repeat case_decide; try discriminate.
  all: repeat split; try lia; try done.
  all: try (apply set_after_exit_app; [done | reflexivity]).
  all: try (apply set_after_exit_signal; [done | lia]).
  all: string_tests.
  all: try (apply E11).
  all: try (intros Hx; first [congruence | by apply E11 in Hx]).
  all: try (destruct F6 as [? ?]; [lia | first [done | congruence]]).
  all: destruct (decide (count is_fire E = 1%nat)) as [Hf|];
    [destruct (F6 Hf); discriminate | lia].
Qed.

Lemma consistent_run cfg fs acts st :
  run cfg acts (async_setup fs) = Some st → consistent cfg st.
Proof.
  apply (run_invariant cfg (consistent cfg) (consistent_step cfg)).
  apply consistent_setup.
Qed.

(** ** What a session does, in every run *)

(** X1.  The thread of a session sets the event at most once: not at all before
    it has returned, once when it has; and whenever it sets the event it has
    left the audio device before.  (A thread that crashed never sets it.) *)
Theorem worker_sets_event_once_after_leaving_device cfg fs acts st i s :
  run cfg acts (async_setup fs) = Some st →
  sessions st !! i = Some s →
  count is_set (effects i st) = signalled (thread s) ∧
  set_after_exit (effects i st).
Proof.
  intros Hrun Hi.
  destruct (consistent_run _ _ _ _ Hrun) as (_ & _ & Hs).
  destruct (Hs i s Hi) as [Hwf _]. unfold thread_wf in Hwf. tauto.
Qed.

Lemma worker_sets_event_once_after_leaving_device_witness :
  ∃ st, run demo detection_run (async_setup detection_script) = Some st ∧
  ∃ s, sessions st !! 0%nat = Some s ∧
    count is_set (effects 0 st) = signalled (thread s) ∧
    set_after_exit (effects 0 st).
Proof.
  reach st E. session_at s Es.
  exact (worker_sets_event_once_after_leaving_device _ _ _ _ _ _ E Es).
Defined.

(** X2.  The [with] blocks of [listen] are balanced on every path: a thread that
    is in the loop has entered the audio device and the utterance once and
    left neither; a thread that left the loop, for whatever reason (match,
    termination, failed read), has left both once; a thread that has not
    reached the blocks, or crashed before them, has entered neither.  Every
    [end_utterance] block that was entered was left. *)
Theorem device_and_utterance_blocks_are_balanced cfg fs acts st i s :
  run cfg acts (async_setup fs) = Some st →
  sessions st !! i = Some s →
  count is_enter (effects i st) = entered (thread s) ∧
  count is_utt_enter (effects i st) = entered (thread s) ∧
  count is_exit (effects i st) = left (thread s) ∧
  count is_utt_exit (effects i st) = left (thread s) ∧
  count is_end_exit (effects i st) = count is_end_enter (effects i st).
Proof.
  intros Hrun Hi.
  destruct (consistent_run _ _ _ _ Hrun) as (_ & _ & Hs).
  destruct (Hs i s Hi) as [Hwf _]. unfold thread_wf in Hwf. tauto.
Qed.

Lemma device_and_utterance_blocks_are_balanced_witness :
  ∃ st, run demo detection_run (async_setup detection_script) = Some st ∧
  ∃ s, sessions st !! 0%nat = Some s ∧
    count is_enter (effects 0 st) = entered (thread s) ∧
    count is_utt_enter (effects 0 st) = entered (thread s) ∧
    count is_exit (effects 0 st) = left (thread s) ∧
    count is_utt_exit (effects 0 st) = left (thread s) ∧
    count is_end_exit (effects 0 st) = count is_end_enter (effects 0 st).
Proof.
  reach st E. session_at s Es.
  exact (device_and_utterance_blocks_are_balanced _ _ _ _ _ _ E Es).
Defined.

(** X3.  The assignment [detected_phrase = hyp.hypstr] in [listen] binds a local
    variable of [listen]: the closure variable [detected_phrase] of
    [async_setup] is [None] in every state, whatever was heard, while the
    local of each thread holds the last hypothesis the decoder returned to
    that thread. *)
Theorem heard_phrase_stays_local_to_the_thread cfg fs acts st i s :
  run cfg acts (async_setup fs) = Some st →
  sessions st !! i = Some s →
  detected_phrase st = None ∧
  listen_detected_phrase s = last_hypothesis (effects i st).
Proof.
  intros Hrun Hi.
  destruct (consistent_run _ _ _ _ Hrun) as (Hp & _ & Hs).
  destruct (Hs i s Hi) as [Hwf _]. unfold thread_wf in Hwf. tauto.
Qed.

Lemma heard_phrase_stays_local_to_the_thread_witness :
  ∃ st, run demo detection_run (async_setup detection_script) = Some st ∧
  ∃ s, sessions st !! 0%nat = Some s ∧
    detected_phrase st = None ∧
    listen_detected_phrase s = last_hypothesis (effects 0 st) ∧
    listen_detected_phrase s = Some "wakeword".
Proof.
  reach st E. session_at s Es.
  destruct (heard_phrase_stays_local_to_the_thread _ _ _ _ _ _ E Es) as [H1 H2].
  split; [exact H1|]. split; [exact H2|].
  vm_compute in E. injection E as <-. vm_compute in Es. injection Es as <-.
  reflexivity.
Defined.

(** X4.  The loop of [listen] is left by [break] exactly when the phrase heard
    last is the hotword: a thread whose local [detected_phrase] is the hotword
    has left the loop by [break], and a thread that is still in the loop, or
    left it because of termination or a failed read, holds another phrase or
    none. *)
Theorem loop_left_by_break_iff_hotword_heard cfg fs acts st i s :
  run cfg acts (async_setup fs) = Some st →
  sessions st !! i = Some s →
  listen_detected_phrase s = Some (hotword cfg) ↔
  exit_of (thread s) = Some ByMatch.
Proof.
  intros Hrun Hi.
  destruct (consistent_run _ _ _ _ Hrun) as (_ & _ & Hs).
  destruct (Hs i s Hi) as [Hwf _]. unfold thread_wf in Hwf. tauto.
Qed.

Lemma loop_left_by_break_iff_hotword_heard_witness :
  ∃ st, run demo detection_run (async_setup detection_script) = Some st ∧
  ∃ s, sessions st !! 0%nat = Some s ∧
    (listen_detected_phrase s = Some (hotword demo) ↔
     exit_of (thread s) = Some ByMatch) ∧
    thread s = TDone ByMatch.
Proof.
  reach st E. session_at s Es.
  split; [exact (loop_left_by_break_iff_hotword_heard _ _ _ _ _ _ E Es)|].
  vm_compute in E. injection E as <-. vm_compute in Es. injection Es as <-.
  reflexivity.
Defined.

(** X5.  Every buffer read without error is processed and followed by one query
    of the hypothesis; a failed read (a negative return value) is not
    processed, and it ends the loop: a thread has at most one failed read, and
    has one exactly when the loop was left for that reason. *)
Theorem reads_are_processed_unless_failed cfg fs acts st i s :
  run cfg acts (async_setup fs) = Some st →
  sessions st !! i = Some s →
  count is_hyp (effects i st) = count is_process (effects i st) ∧
  (count is_process (effects i st) + count is_failed_read (effects i st))%nat =
    count is_read (effects i st) ∧
  count is_failed_read (effects i st) =
    (if decide (exit_of (thread s) = Some ByReadError) then 1 else 0)%nat.
Proof.
  intros Hrun Hi.
  destruct (consistent_run _ _ _ _ Hrun) as (_ & _ & Hs).
  destruct (Hs i s Hi) as [Hwf _]. unfold thread_wf in Hwf. tauto.
Qed.

Lemma reads_are_processed_unless_failed_witness :
  ∃ st, run demo [Listen; Worker 0; Worker 0; Worker 0]
            (async_setup [quiet [x01]; fault]) = Some st ∧
  ∃ s, sessions st !! 0%nat = Some s ∧
    count is_hyp (effects 0 st) = count is_process (effects 0 st) ∧
    (count is_process (effects 0 st) + count is_failed_read (effects 0 st))%nat =
      count is_read (effects 0 st) ∧
    count is_failed_read (effects 0 st) =
      (if decide (exit_of (thread s) = Some ByReadError) then 1 else 0)%nat.
Proof.
  reach st E. session_at s Es.
  exact (reads_are_processed_unless_failed _ _ _ _ _ _ E Es).
Defined.

(** X6.  The coroutine of a session publishes 'listening' once, clears the event
    once and starts one thread; it publishes 'idle' as often as it fires the
    event, at most once, and it has fired only if it has returned and its
    thread has ended ([thread.join()]). *)
Theorem coroutine_fires_at_most_once_after_join cfg fs acts st i s :
  run cfg acts (async_setup fs) = Some st →
  sessions st !! i = Some s →
  count is_listening_status (effects i st) = 1%nat ∧
  count is_clear (effects i st) = 1%nat ∧
  count is_thread_start (effects i st) = 1%nat ∧
  count is_idle (effects i st) = count is_fire (effects i st) ∧
  (count is_fire (effects i st) ≤ 1)%nat ∧
  (count is_fire (effects i st) = 1%nat →
   coro s = CDone ∧ finished (thread s) = true).
Proof.
  intros Hrun Hi.
  destruct (consistent_run _ _ _ _ Hrun) as (_ & _ & Hs).
  destruct (Hs i s Hi) as [_ Hco]. exact Hco.
Qed.

Lemma coroutine_fires_at_most_once_after_join_witness :
  ∃ st, run demo detection_run (async_setup detection_script) = Some st ∧
  ∃ s, sessions st !! 0%nat = Some s ∧
    count is_fire (effects 0 st) = 1%nat ∧
    coro s = CDone ∧ finished (thread s) = true.
Proof.
  reach st E. session_at s Es.
  destruct (coroutine_fires_at_most_once_after_join _ _ _ _ _ _ E Es)
    as (_ & _ & _ & _ & _ & H).
  assert (count is_fire (effects 0 st) = 1%nat) as Hf.
  { clear H Es. vm_compute in E. injection E as <-. vm_compute. reflexivity. }
  split; [exact Hf|]. exact (H Hf).
Defined.

(** ** What a step adds to the log *)

Lemma step_log cfg a st st' :
  step cfg a st = Some st' →
  ∃ l, log st' = log st ++ l ∧
    ((Forall not_published l ∧ a ≠ Listen) ∨
     (a = Listen ∧
      l = map (pair (Call (length (sessions st))))
            [StatesSet OBJECT_DECODER STATE_LISTENING (state_attrs st);
             EventClear; ThreadStart]) ∨
     (terminated st = false ∧ ∃ i,
      a = Resume i ∧
      l = map (pair (Call i))
            [StatesSet OBJECT_DECODER STATE_IDLE (state_attrs st);
             BusFire EVENT_HOTWORD_DETECTED [("name", name cfg)]])).
Proof.
  intros H. step_cases H.
  all: unfold leave, async_listen, async_terminate.
  all: cbn [log state_attrs emit set_session set_script set_detected_event
            set_terminated set_detected_phrase add_session].
  all: rewrite <- ?app_assoc, <- ?map_app.
  1: { eexists. split; [reflexivity|]. right. left. done. }
  all: try (eexists; split; [reflexivity|]).
  all: try (exists []; split; [by rewrite app_nil_r|]).
  all: try (left; split; [by repeat constructor | done]).
  right. right. split; [done|]. eexists. split; reflexivity.
Qed.

(** ** What is published *)



Lemma fire_follows_idle_step cfg a st st' :
  fire_follows_idle (log st) → step cfg a st = Some st' →
  fire_follows_idle (log st').
Proof.
  intros Hf H.
  destruct (step_log _ _ _ _ H)
    as (l & -> & [(Hq & _)|[(-> & ->)|(Ht & i & -> & ->)]]).
  all: intros k who t d Hk; apply lookup_app_Some in Hk as [Hk|[Hlen Hk]].
  all: try (destruct (Hf _ _ _ _ Hk) as (k' & a0 & -> & Hk');
            exists k', a0; split; [done | by apply lookup_app_l_Some]).
  - apply list_elem_of_lookup_2 in Hk.
    rewrite Forall_forall in Hq. by specialize (Hq _ Hk).
  - revert Hk. match goal with |- _ !! ?n = _ → _ => generalize n end.
    intros [|[|[|?]]] Hk; cbn in Hk; simplify_eq.
  - revert Hk. match goal with |- _ !! ?n = _ → _ => remember n as m eqn:Em end.
    destruct m as [|[|?]]; intros Hk; cbn in Hk; simplify_eq.
    exists (length (log st)), (state_attrs st).
    split; [unfold entry in *; lia|]. by apply list_lookup_middle.
Qed.

Lemma fire_follows_idle_setup fs : fire_follows_idle (log (async_setup fs)).
Proof. intros [|k] who t d Hk; cbn in Hk; simplify_eq. Qed.

Lemma attrs_kept_run cfg fs acts st :
  run cfg acts (async_setup fs) = Some st → attrs_kept st.
Proof.
  apply (run_invariant cfg attrs_kept (attrs_kept_step cfg)).
  apply attrs_kept_setup.
Qed.

Lemma status_surface_snoc l e :
  status_surface (l ++ [e]) = observe (status_surface l) e.
Proof. unfold status_surface. by rewrite foldl_app. Qed.

Lemma status_surface_app_quiet l l' :
  Forall not_published l' → status_surface (l ++ l') = status_surface l.
Proof.
  unfold status_surface. rewrite foldl_app. generalize (foldl observe None l).
  induction l' as [|[w e] l' IH]; intros cur Hq; [done|].
  inversion Hq as [|? ? He Hq']; subst. cbn [foldl]. rewrite IH by done.
  unfold not_published in He. by destruct e.
Qed.



(** X8.  Whoever receives [hotword_detected] finds the decoder status idle: in
    the log, every notification comes directly after the idle publication of
    the same coroutine, so the status surface holds idle, with the attributes
    of the setup, at the moment the notification is sent. *)
Theorem status_is_idle_when_event_is_fired cfg fs acts st k who t d :
  run cfg acts (async_setup fs) = Some st →
  log st !! k = Some (who, BusFire t d) →
  status_surface (take k (log st)) = Some (STATE_IDLE, attrs0).
Proof.
  intros Hrun Hk.
  assert (fire_follows_idle (log st)) as Hf.
  { revert Hrun. apply (run_invariant cfg (λ s, fire_follows_idle (log s))).
    - intros a s s'. apply fire_follows_idle_step.
    - apply fire_follows_idle_setup. }
  destruct (Hf _ _ _ _ Hk) as (k' & a & -> & Hk').
  destruct (attrs_kept_run _ _ _ _ Hrun) as [_ Ha].
  rewrite (Ha who OBJECT_DECODER STATE_IDLE a) in Hk'
    by (by eapply list_elem_of_lookup_2).
  erewrite take_S_r by exact Hk'. rewrite status_surface_snoc.
  unfold observe. cbn [snd]. by rewrite String.eqb_refl.
Qed.

Lemma status_is_idle_when_event_is_fired_witness :
  ∃ st, run demo detection_run (async_setup detection_script) = Some st ∧
    status_surface (take 18 (log st)) = Some (STATE_IDLE, attrs0).
Proof.
  reach st E.
  apply (status_is_idle_when_event_is_fired demo detection_script detection_run st 18
           (Call 0) EVENT_HOTWORD_DETECTED [("name", name demo)] E).
  vm_compute in E. injection E as <-. vm_compute. reflexivity.
Defined.

(** ** Shutdown *)

(** X9.  After [async_terminate], and until the next call of [listen], nothing is
    published and nothing is fired, whatever the threads and coroutines do:
    the coroutines that are resumed return without publishing, and the status
    surface keeps the value it had (listening, if a call of [listen] was
    under way). *)
Theorem shutdown_silences_until_next_listen cfg st acts st' :
  Forall (λ a, a ≠ Listen) acts →
  run cfg acts (async_terminate st) = Some st' →
  ∃ l, log st' = log st ++ (Stop, EventSet) :: l ∧
       Forall not_published l ∧
       status_surface (log st') = status_surface (log st).
Proof.
  intros Hacts Hrun.
  assert (terminated st' = true ∧
          ∃ l, log st' = log st ++ (Stop, EventSet) :: l ∧
               Forall not_published l) as (_ & l & Hl & Hp).
  { refine (run_invariant_on cfg (λ a, a ≠ Listen)
             (λ s, terminated s = true ∧
                   ∃ l, log s = log st ++ (Stop, EventSet) :: l ∧
                        Forall not_published l)
             _ acts (async_terminate st) st' Hacts _ Hrun).
    - intros a s s' Ha (Ht & l & Hl & Hp) H.
      split; [by eapply terminated_kept|].
      destruct (step_log _ _ _ _ H)
        as (l' & -> & [(Hq & _)|[(-> & _)|(Hf & _)]]); [|done|congruence].
      exists (l ++ l'). rewrite Hl, <- app_assoc. split; [done|].
      apply Forall_app; auto.
    - split; [reflexivity|]. exists []. split; [reflexivity|]. constructor. }
  exists l. split; [exact Hl|]. split; [exact Hp|].
  rewrite Hl. apply status_surface_app_quiet. by constructor.
Qed.

Lemma shutdown_silences_until_next_listen_witness :
  ∃ st', run demo [Worker 0; Worker 0; Wake 0; Resume 0]
             (async_terminate
                (async_listen (async_setup detection_script))) = Some st' ∧
    status_surface (log st') = Some (STATE_LISTENING, attrs0).
Proof.
  reach st' E.
  assert (Forall (λ a, a ≠ Listen) [Worker 0; Worker 0; Wake 0; Resume 0]) as Hacts
    by (repeat constructor; discriminate).
  destruct (shutdown_silences_until_next_listen demo
              (async_listen (async_setup detection_script))
              [Worker 0; Worker 0; Wake 0; Resume 0] st' Hacts E)
    as (l & _ & _ & ->).
  vm_compute. reflexivity.
Defined.

(** ** Threads that crash, threads that return *)

Lemma no_worker_started_step cfg fs a st st' :
  buffer_size cfg < 0 →
  no_worker_started fs st → step cfg a st = Some st' →
  no_worker_started fs st'.
Proof.
  intros Hb [Hscr Hs] H. step_cases H.
  all: try match goal with
       | Hl : sessions _ !! _ = Some ?s, Ht : thread ?s = _ |- _ =>
         by (destruct (Hs _ _ Hl); congruence)
       end.
  all: try match goal with
       | Hn : _ || _ = false |- _ => apply orb_false_iff in Hn as [Hn _]; lia
       end.
  all: split; [reflexivity|].
  - intros j sj Hj. cbn in Hj.
    apply lookup_app_Some in Hj as [Hj|[_ Hj]]; [by eapply Hs|].
    apply list_lookup_singleton_Some in Hj as [_ <-]. by left.
  - exact Hs.
  - intros j sj Hj. session_cases Hj i j; [by right | by eapply Hs].
  - intros j sj Hj. session_cases Hj i j; [cbn; by eapply Hs | by eapply Hs].
  - intros j sj Hj. session_cases Hj i j; [cbn; by eapply Hs | by eapply Hs].
  - intros j sj Hj. session_cases Hj i j; [cbn; by eapply Hs | by eapply Hs].
  - intros j sj Hj. session_cases Hj i j; [by right | by eapply Hs].
Qed.

Lemma some_worker_returned_step cfg a st st' :
  step cfg a st = Some st' →
  some_worker_returned st → some_worker_returned st'.
Proof.
  intros H (j & sj & r & Hj & Ht). step_cases H.
  1: { exists j, sj, r. split; [cbn; by apply lookup_app_l_Some | done]. }
  1: { by exists j, sj, r. }
  all: destruct (decide (i = j)) as [->|Hne];
    [|exists j, sj, r; split; [cbn; by rewrite list_lookup_insert_ne | done]].
  all: simplify_eq.
  all: try congruence.
  all: eexists j, _, r;
    (split; [cbn; apply list_lookup_insert_eq; by eapply lookup_lt_Some | done]).
Qed.

Lemma woken_by_worker_step cfg a st st' :
  a ≠ Terminate →
  woken_by_worker st → step cfg a st = Some st' → woken_by_worker st'.
Proof.
  intros Ha [He Hc] H.
  assert (some_worker_returned st → some_worker_returned st') as Hswr
    by (by eapply some_worker_returned_step).
  step_cases H; try done.
  1: { split; [done|]. intros j sj Hj Hco. cbn in Hj.
       apply lookup_app_Some in Hj as [Hj|[_ Hj]]; [by eapply Hswr, Hc|].
       apply list_lookup_singleton_Some in Hj as [_ <-]. done. }
  all: split.
  all: try (intros Hev; by apply Hswr, He).
  all: try (intros j sj Hj Hco; session_cases Hj i j;
            [|by eapply Hswr, Hc];
            first [ by (apply Hswr, (Hc _ _ H1); cbn in *; congruence)
                  | by (apply Hswr, He) ]).
  intros _. exists i, (with_thread (TDone r) s), r.
  split; [cbn; apply list_lookup_insert_eq; by eapply lookup_lt_Some | done].
Qed.



(** X11.  With a negative buffer size, [bytearray(buffer_size)] raises in every
    thread before the audio device is entered: in every run no frame is ever
    read, no thread gets past its first statement, none enters the device and
    none sets the event. *)
Theorem negative_buffer_size_crashes_every_worker cfg fs acts st i s :
  buffer_size cfg < 0 →
  run cfg acts (async_setup fs) = Some st →
  sessions st !! i = Some s →
  script st = fs ∧
  (thread s = TStart ∨ thread s = TCrashed) ∧
  count is_enter (effects i st) = 0%nat ∧
  count is_set (effects i st) = 0%nat.
Proof.
  intros Hb Hrun Hi.
  assert (no_worker_started fs st) as [Hscr Hth].
  { refine (run_invariant cfg (no_worker_started fs) _ acts (async_setup fs) st _ Hrun).
    - intros a s1 s2. by apply no_worker_started_step.
    - split; [reflexivity|]. intros j sj Hj. by cbn in Hj. }
  destruct (consistent_run _ _ _ _ Hrun) as (_ & _ & Hs).
  destruct (Hs i s Hi) as [(Hent & _ & _ & _ & Hset & _) _].
  split; [exact Hscr|]. split; [by eapply Hth|].
  destruct (Hth i s Hi) as [Ht|Ht]; rewrite Ht in Hent, Hset; done.
Qed.

Lemma negative_buffer_size_crashes_every_worker_witness :
  ∃ st, run broken [Listen; Worker 0] (async_setup detection_script) = Some st ∧
  ∃ s, sessions st !! 0%nat = Some s ∧
    script st = detection_script ∧
    (thread s = TStart ∨ thread s = TCrashed) ∧
    count is_enter (effects 0 st) = 0%nat ∧
    count is_set (effects 0 st) = 0%nat.
Proof.
  reach st E. session_at s Es.
  apply (negative_buffer_size_crashes_every_worker broken detection_script
           [Listen; Worker 0] st 0%nat s); [done | exact E | exact Es].
Defined.

Lemma woken_by_worker_run cfg fs acts st :
  Forall (λ a, a ≠ Terminate) acts →
  run cfg acts (async_setup fs) = Some st → woken_by_worker st.
Proof.
  intros Hacts Hrun.
  refine (run_invariant_on cfg (λ a, a ≠ Terminate) woken_by_worker
            _ acts (async_setup fs) st Hacts _ Hrun).
  - intros a s1 s2. apply woken_by_worker_step.
  - split; [done|]. intros i s Hi. by cbn in Hi.
Qed.

(** X12.  Without a shutdown request, a wait of [detected_event.wait] returns only
    after some thread has left its loop and set the event; it need not be the
    thread of the same call of [listen], since all calls share one event. *)
Theorem wait_returns_only_after_some_worker_returned cfg fs acts st i s :
  Forall (λ a, a ≠ Terminate) acts →
  run cfg acts (async_setup fs) = Some st →
  sessions st !! i = Some s →
  coro s ≠ CWait →
  ∃ j sj r, sessions st !! j = Some sj ∧ thread sj = TDone r.
Proof.
  intros Hacts Hrun Hi Hco.
  destruct (woken_by_worker_run _ _ _ _ Hacts Hrun) as [_ Hw].
  exact (Hw i s Hi Hco).
Qed.

Lemma wait_returns_only_after_some_worker_returned_witness :
  ∃ st, run demo crossed_run (async_setup crossed_script) = Some st ∧
  ∃ s, sessions st !! 1%nat = Some s ∧
    thread s = TStart ∧ coro s = CWoken ∧
    ∃ j sj r, sessions st !! j = Some sj ∧ thread sj = TDone r.
Proof.
  reach st E. session_at s Es.
  assert (thread s = TStart ∧ coro s = CWoken) as [Ht Hc].
  { pose proof E as E'. vm_compute in E'. injection E' as <-.
    vm_compute in Es. injection Es as <-. split; reflexivity. }
  split; [exact Ht|]. split; [exact Hc|].
  apply (wait_returns_only_after_some_worker_returned demo crossed_script
           crossed_run st 1%nat s); [| exact E | exact Es | by rewrite Hc].
  repeat constructor; discriminate.
Defined.

(** X13.  With a negative buffer size and no shutdown request, every call of
    [listen] hangs: its thread has crashed without setting the event, so no
    wait ever returns, no coroutine is resumed and nothing is fired. *)
Theorem negative_buffer_size_hangs_every_listen_call cfg fs acts st i s :
  buffer_size cfg < 0 →
  Forall (λ a, a ≠ Terminate) acts →
  run cfg acts (async_setup fs) = Some st →
  sessions st !! i = Some s →
  coro s = CWait ∧ count is_fire (effects i st) = 0%nat.
Proof.
  intros Hb Hacts Hrun Hi.
  assert (no_worker_started fs st) as [_ Hth].
  { refine (run_invariant cfg (no_worker_started fs) _ acts (async_setup fs) st _ Hrun).
    - intros a s1 s2. by apply no_worker_started_step.
    - split; [reflexivity|]. intros j sj Hj. by cbn in Hj. }
  destruct (woken_by_worker_run _ _ _ _ Hacts Hrun) as [_ Hw].
  assert (coro s = CWait) as Hwait.
  { destruct (decide (coro s = CWait)) as [|Hne]; [done|].
    destruct (Hw i s Hi Hne) as (j & sj & r & Hj & Ht).
    destruct (Hth j sj Hj); congruence. }
  split; [exact Hwait|].
  destruct (consistent_run _ _ _ _ Hrun) as (_ & _ & Hs).
  destruct (Hs i s Hi) as [_ (_ & _ & _ & _ & Hle & Hfin)].
  destruct (decide (count is_fire (effects i st) = 1%nat)) as [Hf|]; [|lia].
  destruct (Hfin Hf). congruence.
Qed.

Lemma negative_buffer_size_hangs_every_listen_call_witness :
  ∃ st, run broken [Listen; Worker 0] (async_setup detection_script) = Some st ∧
  ∃ s, sessions st !! 0%nat = Some s ∧
    coro s = CWait ∧ count is_fire (effects 0 st) = 0%nat.
Proof.
  reach st E. session_at s Es.
  apply (negative_buffer_size_hangs_every_listen_call broken detection_script
           [Listen; Worker 0] st 0%nat s); [done | | exact E | exact Es].
  repeat constructor; discriminate.
Defined.

(** ** Sessions along a run *)

Lemma later_refl s : later s s.
Proof. by split. Qed.

Lemma later_trans s1 s2 s3 : later s1 s2 → later s2 s3 → later s1 s3.
Proof.
  intros [H1 H1'] [H2 H2']. split.
  - intros Hf. destruct (H1 Hf) as (Ht & Hb & Hp).
    destruct H2 as (Ht' & Hb' & Hp'); [by rewrite Ht|].
    split; [congruence|]. split; congruence.
  - auto.
Qed.

Lemma later_step cfg a st st' j s :
  step cfg a st = Some st' →
  sessions st !! j = Some s →
  length (sessions st') = (length (sessions st) + listens [a])%nat ∧
  ∃ s', sessions st' !! j = Some s' ∧ later s s'.
Proof.
  intros H Hj.
  assert (listens [a] = if decide (a = Listen) then 1 else 0)%nat as ->
    by (unfold listens; cbn; by destruct (decide _)).
  step_cases H.
  all: case_decide; try discriminate; try congruence.
  1: { split; [cbn; rewrite length_app; cbn; lia|].
       exists s. split; [cbn; by apply lookup_app_l_Some | apply later_refl]. }
  1: { split; [cbn; lia|]. exists s. split; [done | apply later_refl]. }
  all: split; [cbn; rewrite length_insert; lia|].
  all: destruct (decide (i = j)) as [->|Hne];
    [|exists s; split; [cbn; by rewrite list_lookup_insert_ne | apply later_refl]].
  all: simplify_eq.
  all: eexists; split;
    [cbn; apply list_lookup_insert_eq; by eapply lookup_lt_Some|].
  all: split; cbn; [intros Hf | intros Hc]; try congruence.
  all: try (rewrite H2 in Hf; discriminate).
  all: done.
Qed.

(** X14.  Sessions are never removed, reused or restarted: along every run the
    number of sessions grows by one with each call of [listen] and only then,
    a thread that has ended keeps its program counter, its buffer and the
    phrase it heard, and a coroutine that has returned stays returned,
    whatever calls of [listen] and shutdown requests follow. *)
Theorem sessions_are_never_removed_or_restarted cfg acts st st' i s :
  run cfg acts st = Some st' →
  sessions st !! i = Some s →
  length (sessions st') = (length (sessions st) + listens acts)%nat ∧
  ∃ s', sessions st' !! i = Some s' ∧
    (finished (thread s) = true →
     thread s' = thread s ∧ buf s' = buf s ∧
     listen_detected_phrase s' = listen_detected_phrase s) ∧
    (coro s = CDone → coro s' = CDone).
Proof.
  revert st s. induction acts as [|a acts IH]; intros st s Hrun Hi.
  - cbn in Hrun. simplify_eq. split; [change (listens []) with 0%nat; lia|].
    exists s. split; [done|].
    apply later_refl.
  - cbn in Hrun. destruct (step cfg a st) as [st1|] eqn:E; [|done].
    destruct (later_step _ _ _ _ _ _ E Hi) as (Hlen & s1 & H1 & Hl1).
    destruct (IH st1 s1 Hrun H1) as (Hlen' & s' & H' & Hl').
    split.
    + rewrite Hlen', Hlen.
      change (listens (a :: acts))
        with (length (if decide (a = Listen)
                      then a :: filter (λ a, a = Listen) acts
                      else filter (λ a, a = Listen) acts)).
      change (listens [a])
        with (length (if decide (a = Listen) then [a] else [])).
      unfold listens. destruct (decide (a = Listen)); cbn; lia.
    + exists s'. split; [done|]. exact (later_trans _ _ _ Hl1 Hl').
Qed.

Lemma sessions_are_never_removed_or_restarted_witness :
  ∃ st, run demo detection_run (async_setup detection_script) = Some st ∧
  ∃ s, sessions st !! 0%nat = Some s ∧
  ∃ st', run demo [Terminate; Listen; Worker 1] st = Some st' ∧
    length (sessions st') = 2%nat ∧
    ∃ s', sessions st' !! 0%nat = Some s' ∧ thread s' = TDone ByMatch.
Proof.
  reach st E. session_at s Es.
  destruct (run demo [Terminate; Listen; Worker 1] st) as [st'|] eqn:E';
    [|exfalso; vm_compute in E; injection E as <-; vm_compute in E'; discriminate].
  exists st'. split; [reflexivity|].
  destruct (sessions_are_never_removed_or_restarted demo
              [Terminate; Listen; Worker 1] st st' 0%nat s E' Es)
    as (Hlen & s' & Hs' & Hfin & _).
  assert (thread s = TDone ByMatch ∧ length (sessions st) = 1%nat) as [Ht Hl].
  { clear E' Hlen Hs' Hfin. vm_compute in E. injection E as <-.
    vm_compute in Es. injection Es as <-. split; reflexivity. }
  split; [rewrite Hlen, Hl; reflexivity|].
  exists s'. split; [exact Hs'|].
  destruct Hfin as (-> & _); [by rewrite Ht | exact Ht].
Defined.

(** ** Sessions from the loop to their end *)

Section Endings.

Variable cfg : config.

Lemma listen_iteration i s st f rest :
  sessions st !! i = Some s → thread s = TLoop → terminated st = false →
  script st = f :: rest → unheard cfg f →
  ∃ st' s' l,
    listen cfg i st = Some st' ∧
    loop_kept i s st s' st' ∧
    script st' = rest ∧
    log st' = log st ++ map (pair (Call i)) l ∧
    count is_read l = 1%nat ∧ count is_publication l = 0%nat ∧
    (listen_detected_phrase s ≠ Some (hotword cfg) →
     listen_detected_phrase s' ≠ Some (hotword cfg)) ∧
    count is_process l = 1%nat.
Proof.
  intros Hs Ht Hf Hscr [Hrd Hhyp].
  unfold listen. rewrite Hs, Ht, Hf, Hscr.
  destruct (Z.ltb_spec (rd f) 0) as [|_]; [lia|].
  destruct (hyp f) as [h|] eqn:Eh.
  - destruct (String.eqb_spec h (hotword cfg)) as [->|Hne]; [done|].
    eexists _, _, _. split; [reflexivity|].
    split; [by repeat split|]. split; [reflexivity|].
    split; [cbn [log emit set_session set_script];
            rewrite <- !app_assoc, <- !map_app; reflexivity|].
    split; [reflexivity|]. split; [reflexivity|].
    split; [cbn; congruence | reflexivity].
  - eexists _, _, _. split; [reflexivity|].
    split; [by repeat split|]. split; [reflexivity|].
    split; [cbn [log emit set_session set_script];
            rewrite <- !app_assoc, <- !map_app; reflexivity|].
    split; [reflexivity|]. split; [reflexivity|].
    split; [cbn; congruence | reflexivity].
Qed.

(** The loop runs through any number of frames in which the hotword is not
    heard. *)
Lemma listen_loop i pre :
  ∀ st s rest,
  sessions st !! i = Some s → thread s = TLoop → terminated st = false →
  script st = pre ++ rest → Forall (unheard cfg) pre →
  ∃ st' s' l,
    run cfg (replicate (length pre) (Worker i)) st = Some st' ∧
    loop_kept i s st s' st' ∧
    script st' = rest ∧
    log st' = log st ++ map (pair (Call i)) l ∧
    count is_read l = length pre ∧ count is_publication l = 0%nat ∧
    (listen_detected_phrase s ≠ Some (hotword cfg) →
     listen_detected_phrase s' ≠ Some (hotword cfg)) ∧
    count is_process l = length pre.
Proof.
  induction pre as [|f pre IH]; intros st s rest Hs Ht Hf Hscr Hpre.
  - exists st, s, []. split; [reflexivity|].
    split; [split; [by rewrite list_insert_id | done]|].
    split; [done|]. split; [by rewrite app_nil_r | done].
  - inversion Hpre as [|? ? Hun Hpre']; subst.
    destruct (listen_iteration i s st f (pre ++ rest) Hs Ht Hf Hscr Hun)
      as (st1 & s1 & l1 & H1 & (Hss1 & Ht1 & Hc1 & Hf1 & He1 & Ha1) & Hscr1 & Hl1 & Hr1 & Hp1 & Hph1 & Hpr1).
    assert (i < length (sessions st))%nat as Hi by (by eapply lookup_lt_Some).
    destruct (IH st1 s1 rest) as (st' & s' & l & H' & (Hss' & Ht' & Hc' & Hf' & He' & Ha') & Hscr' & Hl' & Hr' & Hp' & Hph' & Hpr');
      [by rewrite Hss1, list_lookup_insert_eq | done | congruence | done | done |].
    exists st', s', (l1 ++ l). split.
    { cbn [length replicate run step]. by rewrite H1. }
    split.
    { split; [by rewrite Hss', Hss1, list_insert_insert_eq|].
      split; [done|]. split; [congruence|]. split; [congruence|].
      split; congruence. }
    split; [done|]. split.
    { by rewrite Hl', Hl1, map_app, app_assoc. }
    rewrite !count_app. cbn [length]. split; [lia|]. split; [lia|].
    split; [auto | lia].
Qed.

Lemma listen_heard i s st f rest :
  sessions st !! i = Some s → thread s = TLoop → terminated st = false →
  script st = f :: rest → 0 ≤ rd f → hyp f = Some (hotword cfg) →
  listen cfg i st =
  Some (set_script rest
          (set_session i
             (Session_ (TSignal ByMatch) (readinto f (buf s))
                       (Some (hotword cfg)) (coro s))
             (emit (Call i)
                [AdReadinto (rd f); ProcessRaw (readinto f (buf s));
                 HypQuery (Some (hotword cfg));
                 EndUtteranceEnter; EndUtteranceExit;
                 StartUtteranceExit; AdExit] st))).
Proof.
  intros Hs Ht Hf Hscr Hrd Hhyp.
  unfold listen. rewrite Hs, Ht, Hf, Hscr, Hhyp.
  destruct (Z.ltb_spec (rd f) 0) as [|_]; [lia|].
  rewrite String.eqb_refl. unfold leave, emit, set_session, set_script. cbn.
  by rewrite <- !app_assoc.
Qed.

Lemma listen_failed i s st f rest :
  sessions st !! i = Some s → thread s = TLoop → terminated st = false →
  script st = f :: rest → rd f < 0 →
  listen cfg i st =
  Some (set_script rest
          (set_session i
             (Session_ (TSignal ByReadError) (readinto f (buf s))
                       (listen_detected_phrase s) (coro s))
             (emit (Call i) [AdReadinto (rd f); StartUtteranceExit; AdExit] st))).
Proof.
  intros Hs Ht Hf Hscr Hrd.
  unfold listen. rewrite Hs, Ht, Hf, Hscr.
  destruct (Z.ltb_spec (rd f) 0) as [_|]; [|lia].
  unfold leave, emit, set_session, set_script. cbn.
  by rewrite <- !app_assoc.
Qed.

(** A thread that has left the loop sets the event, the wait returns, and
    the coroutine, resumed with the flag unset, joins the thread and reports
    a detection, whatever the reason [r] for which the loop was left. *)
Lemma signal_wake_resume i s st r :
  sessions st !! i = Some s → thread s = TSignal r → coro s = CWait →
  terminated st = false →
  run cfg [Worker i; Wake i; Resume i] st =
  Some (set_detected_event true
          (set_session i
             (Session_ (TDone r) (buf s) (listen_detected_phrase s) CDone)
             (emit (Call i) (EventSet :: report cfg st) st))).
Proof.
  intros Hs Ht Hc Hf.
  assert (i < length (sessions st))%nat as Hi by (by eapply lookup_lt_Some).
  cbn [run step]. unfold listen. rewrite Hs, Ht.
  unfold wait_returns. cbn [sessions set_session emit set_detected_event detected_event].
  rewrite list_lookup_insert_eq by done. cbn [coro with_thread]. rewrite Hc.
  unfold async_listen_resume.
  cbn [sessions set_session emit set_detected_event terminated].
  rewrite list_lookup_insert_eq by (by rewrite length_insert).
  cbn [coro with_coro thread with_thread finished]. rewrite Hf.
  unfold set_detected_event, set_session, emit, report. cbn.
  by rewrite !list_insert_insert_eq, <- !app_assoc.
Qed.

(** The same with the flag set: the coroutine returns without publishing
    anything. *)
Lemma signal_wake_resume_terminated i s st r :
  sessions st !! i = Some s → thread s = TSignal r → coro s = CWait →
  terminated st = true →
  run cfg [Worker i; Wake i; Resume i] st =
  Some (set_detected_event true
          (set_session i
             (Session_ (TDone r) (buf s) (listen_detected_phrase s) CDone)
             (emit (Call i) [EventSet] st))).
Proof.
  intros Hs Ht Hc Hf.
  assert (i < length (sessions st))%nat as Hi by (by eapply lookup_lt_Some).
  cbn [run step]. unfold listen. rewrite Hs, Ht.
  unfold wait_returns. cbn [sessions set_session emit set_detected_event detected_event].
  rewrite list_lookup_insert_eq by done. cbn [coro with_thread]. rewrite Hc.
  unfold async_listen_resume.
  cbn [sessions set_session emit set_detected_event terminated].
  rewrite list_lookup_insert_eq by (by rewrite length_insert).
  cbn [coro with_coro thread with_thread finished]. rewrite Hf.
  unfold set_detected_event, set_session, emit. cbn.
  by rewrite !list_insert_insert_eq.
Qed.

End Endings.

Lemma status_surface_report cfg st w l l' :
  status_surface (l ++ map (pair w) (l' ++ report cfg st)) =
  Some (STATE_IDLE, state_attrs st).
Proof.
  rewrite map_app, app_assoc. unfold report. cbn [map].
  match goal with |- context [?x ++ [?a; ?b]] =>
    change (x ++ [a; b]) with (x ++ ([a] ++ [b])) end.
  rewrite app_assoc, !status_surface_snoc.
  unfold observe. cbn [snd]. by rewrite String.eqb_refl.
Qed.

(** X15.  The hotword heard after any number of frames is reported.  Take a
    session whose thread is in the loop and whose coroutine waits, the flag
    unset, and a script that starts with any number of frames in which the
    hotword is not heard, followed by a frame in which it is.  Then the thread
    reads exactly these frames, leaves the loop by [break] and sets the event;
    the coroutine wakes, publishes idle and fires [hotword_detected] with
    the name of the component, once; the frames after the hotword are left
    unread. *)
Theorem hotword_heard_after_any_frames_is_reported cfg i st s pre f rest :
  sessions st !! i = Some s → thread s = TLoop → coro s = CWait →
  terminated st = false →
  script st = pre ++ f :: rest →
  Forall (unheard cfg) pre →
  0 ≤ rd f → hyp f = Some (hotword cfg) →
  ∃ st' b l,
    run cfg (replicate (length pre) (Worker i) ++
             [Worker i; Worker i; Wake i; Resume i]) st = Some st' ∧
    sessions st' =
      <[i:=Session_ (TDone ByMatch) b (Some (hotword cfg)) CDone]> (sessions st) ∧
    script st' = rest ∧
    log st' = log st ++ map (pair (Call i)) (l ++ report cfg st) ∧
    count is_read l = S (length pre) ∧
    count is_publication l = 0%nat ∧
    status_surface (log st') = Some (STATE_IDLE, state_attrs st).
Proof.
  intros Hs Ht Hc Hf Hscr Hpre Hrd Hhyp.
  assert (i < length (sessions st))%nat as Hi by (by eapply lookup_lt_Some).
  destruct (listen_loop cfg i pre st s (f :: rest) Hs Ht Hf Hscr Hpre)
    as (st1 & s1 & l1 & H1 & (Hss1 & Ht1 & Hc1 & Hf1 & He1 & Ha1) & Hscr1 & Hl1 & Hr1 & Hp1 & _ & _).
  assert (sessions st1 !! i = Some s1) as Hs1
    by (by rewrite Hss1, list_lookup_insert_eq).
  pose proof (listen_heard cfg i s1 st1 f rest Hs1 Ht1
                ltac:(congruence) Hscr1 Hrd Hhyp) as H2.
  match type of H2 with _ = Some ?x => set (st2 := x) in H2 end.
  pose proof (signal_wake_resume cfg i
                (Session_ (TSignal ByMatch) (readinto f (buf s1))
                          (Some (hotword cfg)) (coro s1)) st2 ByMatch) as H3.
  specialize (H3 ltac:(subst st2; cbn; apply list_lookup_insert_eq;
                       by rewrite Hss1, length_insert)
                 eq_refl ltac:(cbn; congruence)
                 ltac:(subst st2; cbn; congruence)).
  eexists _, (readinto f (buf s1)), (l1 ++ _ ++ [EventSet]).
  split.
  { rewrite run_app, H1. cbn [run step]. rewrite H2. exact H3. }
  assert (report cfg st2 = report cfg st) as Hrep.
  { unfold report. subst st2. cbn. by rewrite Ha1. }
  assert (log (set_detected_event true
            (set_session i
               (Session_ (TDone ByMatch) (readinto f (buf s1))
                  (Some (hotword cfg)) CDone)
               (emit (Call i) (EventSet :: report cfg st2) st2))) =
          log st ++ map (pair (Call i))
            ((l1 ++ [AdReadinto (rd f); ProcessRaw (readinto f (buf s1));
                     HypQuery (Some (hotword cfg));
                     EndUtteranceEnter; EndUtteranceExit;
                     StartUtteranceExit; AdExit] ++ [EventSet]) ++
             report cfg st)) as Hlog.
  { rewrite Hrep. subst st2. cbn [log emit set_session set_script set_detected_event].
    rewrite Hl1, !map_app, <- !app_assoc. reflexivity. }
  split.
  { subst st2. cbn [sessions emit set_session set_script set_detected_event].
    by rewrite Hss1, !list_insert_insert_eq. }
  split; [reflexivity|].
  split; [exact Hlog|].
  split; [rewrite !count_app, Hr1; cbn; lia|].
  split; [rewrite !count_app, Hp1; reflexivity|].
  etransitivity; [apply (f_equal status_surface); exact Hlog|].
  apply status_surface_report.
Qed.

Lemma hotword_heard_after_any_frames_is_reported_witness :
  ∃ st' b l,
    run demo (replicate 1 (Worker 0) ++ [Worker 0; Worker 0; Wake 0; Resume 0])
        in_loop = Some st' ∧
    sessions st' =
      <[0%nat:=Session_ (TDone ByMatch) b (Some (hotword demo)) CDone]>
        (sessions in_loop) ∧
    script st' = [quiet [x04]] ∧
    log st' = log in_loop ++ map (pair (Call 0)) (l ++ report demo in_loop) ∧
    count is_read l = 2%nat ∧
    count is_publication l = 0%nat ∧
    status_surface (log st') = Some (STATE_IDLE, state_attrs in_loop).
Proof.
  apply (hotword_heard_after_any_frames_is_reported demo 0 in_loop in_loop_session
           [quiet [x01; x02]] (heard [x03] "wakeword") [quiet [x04]]).
  - reflexivity.
  - reflexivity.
  - reflexivity.
  - reflexivity.
  - reflexivity.
  - repeat constructor; discriminate.
  - discriminate.
  - reflexivity.
Defined.

(** X16.  A failed read is reported as a detection.  With the same start, if
    the frames in which the hotword is not heard are followed by a read that
    fails (a negative return value), the thread leaves the loop and the
    device and sets the event, and the coroutine, finding the flag unset,
    publishes idle and fires [hotword_detected], although the phrase the
    thread heard last is not the hotword. *)
Theorem failed_read_is_reported_as_detection cfg i st s pre f rest :
  sessions st !! i = Some s → thread s = TLoop → coro s = CWait →
  terminated st = false →
  listen_detected_phrase s ≠ Some (hotword cfg) →
  script st = pre ++ f :: rest →
  Forall (unheard cfg) pre →
  rd f < 0 →
  ∃ st' b p l,
    run cfg (replicate (length pre) (Worker i) ++
             [Worker i; Worker i; Wake i; Resume i]) st = Some st' ∧
    sessions st' =
      <[i:=Session_ (TDone ByReadError) b p CDone]> (sessions st) ∧
    p ≠ Some (hotword cfg) ∧
    script st' = rest ∧
    log st' = log st ++ map (pair (Call i)) (l ++ report cfg st) ∧
    count is_read l = S (length pre) ∧
    count is_process l = length pre ∧
    count is_publication l = 0%nat ∧
    status_surface (log st') = Some (STATE_IDLE, state_attrs st).
Proof.
  intros Hs Ht Hc Hf Hph Hscr Hpre Hrd.
  assert (i < length (sessions st))%nat as Hi by (by eapply lookup_lt_Some).
  destruct (listen_loop cfg i pre st s (f :: rest) Hs Ht Hf Hscr Hpre)
    as (st1 & s1 & l1 & H1 & (Hss1 & Ht1 & Hc1 & Hf1 & He1 & Ha1) & Hscr1 & Hl1 & Hr1 & Hp1 & Hph1 & Hpr1).
  assert (sessions st1 !! i = Some s1) as Hs1
    by (by rewrite Hss1, list_lookup_insert_eq).
  pose proof (listen_failed cfg i s1 st1 f rest Hs1 Ht1
                ltac:(congruence) Hscr1 Hrd) as H2.
  match type of H2 with _ = Some ?x => set (st2 := x) in H2 end.
  pose proof (signal_wake_resume cfg i
                (Session_ (TSignal ByReadError) (readinto f (buf s1))
                          (listen_detected_phrase s1) (coro s1)) st2 ByReadError) as H3.
  specialize (H3 ltac:(subst st2; cbn; apply list_lookup_insert_eq;
                       by rewrite Hss1, length_insert)
                 eq_refl ltac:(cbn; congruence)
                 ltac:(subst st2; cbn; congruence)).
  eexists _, (readinto f (buf s1)), (listen_detected_phrase s1),
    (l1 ++ _ ++ [EventSet]).
  split.
  { rewrite run_app, H1. cbn [run step]. rewrite H2. exact H3. }
  assert (report cfg st2 = report cfg st) as Hrep.
  { unfold report. subst st2. cbn. by rewrite Ha1. }
  assert (log (set_detected_event true
            (set_session i
               (Session_ (TDone ByReadError) (readinto f (buf s1))
                  (listen_detected_phrase s1) CDone)
               (emit (Call i) (EventSet :: report cfg st2) st2))) =
          log st ++ map (pair (Call i))
            ((l1 ++ [AdReadinto (rd f); StartUtteranceExit; AdExit] ++ [EventSet]) ++
             report cfg st)) as Hlog.
  { rewrite Hrep. subst st2. cbn [log emit set_session set_script set_detected_event].
    rewrite Hl1, !map_app, <- !app_assoc. reflexivity. }
  split.
  { subst st2. cbn [sessions emit set_session set_script set_detected_event].
    by rewrite Hss1, !list_insert_insert_eq. }
  split; [by apply Hph1|].
  split; [reflexivity|].
  split; [exact Hlog|].
  split; [rewrite !count_app, Hr1; cbn; lia|].
  split; [rewrite !count_app, Hpr1; cbn; lia|].
  split; [rewrite !count_app, Hp1; reflexivity|].
  etransitivity; [apply (f_equal status_surface); exact Hlog|].
  apply status_surface_report.
Qed.

Lemma failed_read_is_reported_as_detection_witness :
  ∃ st' b p l,
    run demo (replicate 1 (Worker 0) ++ [Worker 0; Worker 0; Wake 0; Resume 0])
        (set_script [quiet [x01]; fault; quiet [x02]] in_loop) = Some st' ∧
    sessions st' =
      <[0%nat:=Session_ (TDone ByReadError) b p CDone]> (sessions in_loop) ∧
    p ≠ Some (hotword demo) ∧
    script st' = [quiet [x02]] ∧
    log st' = log in_loop ++ map (pair (Call 0)) (l ++ report demo in_loop) ∧
    count is_read l = 2%nat ∧
    count is_process l = 1%nat ∧
    count is_publication l = 0%nat ∧
    status_surface (log st') = Some (STATE_IDLE, state_attrs in_loop).
Proof.
  apply (failed_read_is_reported_as_detection demo 0
           (set_script [quiet [x01]; fault; quiet [x02]] in_loop) in_loop_session
           [quiet [x01]] fault [quiet [x02]]).
  - reflexivity.
  - reflexivity.
  - reflexivity.
  - reflexivity.
  - discriminate.
  - reflexivity.
  - repeat constructor; discriminate.
  - reflexivity.
Defined.

Lemma in_loop_reached :
  run demo [Listen; Worker 0] (async_setup detection_script) = Some in_loop.
Proof. vm_compute. reflexivity. Qed.

Lemma not_published_map w l :
  count is_publication l = 0%nat → Forall not_published (map (pair w) l).
Proof.
  induction l as [|e l IH]; cbn; intros H; [constructor|].
  destruct (is_publication e) eqn:E; [lia|].
  constructor; [exact E | apply IH; lia].
Qed.

(** X17.  A shutdown request ends a listening session.  With the same start,
    if [async_terminate] runs after the thread has read any number of frames
    in which the hotword is not heard, the thread leaves the loop at its next
    test without another read, leaves the device and sets the event, and the
    coroutine returns; nothing is published, so the status stays as it was. *)
Theorem shutdown_ends_a_listening_session cfg i st s pre rest :
  sessions st !! i = Some s → thread s = TLoop → coro s = CWait →
  terminated st = false →
  script st = pre ++ rest →
  Forall (unheard cfg) pre →
  ∃ st' b p l,
    run cfg (replicate (length pre) (Worker i) ++
             [Terminate; Worker i; Worker i; Wake i; Resume i]) st = Some st' ∧
    sessions st' =
      <[i:=Session_ (TDone ByTerminated) b p CDone]> (sessions st) ∧
    script st' = rest ∧
    terminated st' = true ∧
    log st' = log st ++ l ∧
    Forall not_published l ∧
    status_surface (log st') = status_surface (log st).
Proof.
  intros Hs Ht Hc Hf Hscr Hpre.
  assert (i < length (sessions st))%nat as Hi by (by eapply lookup_lt_Some).
  destruct (listen_loop cfg i pre st s rest Hs Ht Hf Hscr Hpre)
    as (st1 & s1 & l1 & H1 & (Hss1 & Ht1 & Hc1 & Hf1 & He1 & Ha1) & Hscr1 & Hl1 & Hr1 & Hp1 & _ & _).
  assert (sessions st1 !! i = Some s1) as Hs1
    by (by rewrite Hss1, list_lookup_insert_eq).
  pose proof (listen_terminated cfg i s1 (async_terminate st1) Hs1 Ht1 eq_refl) as H2.
  match type of H2 with _ = Some ?x => set (st2 := x) in H2 end.
  pose proof (signal_wake_resume_terminated cfg i
                (with_thread (TSignal ByTerminated) s1) st2 ByTerminated) as H3.
  specialize (H3 ltac:(subst st2; cbn; apply list_lookup_insert_eq;
                       by rewrite Hss1, length_insert)
                 eq_refl ltac:(cbn; congruence) eq_refl).
  eexists _, (buf s1), (listen_detected_phrase s1),
    (map (pair (Call i)) l1 ++
     (Stop, EventSet) :: map (pair (Call i)) [StartUtteranceExit; AdExit; EventSet]).
  split.
  { rewrite run_app, H1. cbn [run step]. rewrite H2. exact H3. }
  assert (Forall not_published
            (map (pair (Call i)) l1 ++
             (Stop, EventSet) ::
             map (pair (Call i)) [StartUtteranceExit; AdExit; EventSet])) as Hq.
  { apply Forall_app. split; [by apply not_published_map|]. by repeat constructor. }
  assert (log (set_detected_event true
            (set_session i
               (Session_ (TDone ByTerminated) (buf s1) (listen_detected_phrase s1) CDone)
               (emit (Call i) [EventSet] st2))) =
          log st ++
            (map (pair (Call i)) l1 ++
             (Stop, EventSet) ::
             map (pair (Call i)) [StartUtteranceExit; AdExit; EventSet])) as Hlog.
  { subst st2. unfold leave, async_terminate.
    cbn [log emit set_session set_script set_detected_event set_terminated].
    rewrite Hl1, <- !app_assoc. reflexivity. }
  split.
  { subst st2. unfold leave, async_terminate.
    cbn [sessions emit set_session set_script set_detected_event set_terminated].
    by rewrite Hss1, !list_insert_insert_eq. }
  split; [exact Hscr1|].
  split; [reflexivity|].
  split; [exact Hlog|].
  split; [exact Hq|].
  etransitivity; [apply (f_equal status_surface); exact Hlog|].
  by apply status_surface_app_quiet.
Qed.

Lemma shutdown_ends_a_listening_session_witness :
  ∃ st' b p l,
    run demo (replicate 1 (Worker 0) ++
              [Terminate; Worker 0; Worker 0; Wake 0; Resume 0]) in_loop = Some st' ∧
    sessions st' =
      <[0%nat:=Session_ (TDone ByTerminated) b p CDone]> (sessions in_loop) ∧
    script st' = [heard [x03] "wakeword"; quiet [x04]] ∧
    terminated st' = true ∧
    log st' = log in_loop ++ l ∧
    Forall not_published l ∧
    status_surface (log st') = status_surface (log in_loop).
Proof.
  apply (shutdown_ends_a_listening_session demo 0 in_loop in_loop_session
           [quiet [x01; x02]] [heard [x03] "wakeword"; quiet [x04]]).
  - reflexivity.
  - reflexivity.
  - reflexivity.
  - reflexivity.
  - reflexivity.
  - repeat constructor; discriminate.
Defined.
